(** * organize.py: routing of game files by region and first character

    A shallow embedding of [organize.py] and the properties of its
    classification and routing logic.

    Python [str] values are modelled by [string]; a character is a code
    point below 256.  Every character class the program uses
    ([[A-Za-z0-9]], [[A-Za-z0-9 ,]], [\d], the white space removed by
    [str.strip]) only singles out characters of that range, so that any
    other character behaves like one outside of all classes.  Paths follow
    [posixpath]. *)

From Stdlib Require Import String Ascii List ZArith Bool Lia.
From Stdlib Require Import DecimalString.
Import ListNotations.

Local Open Scope list_scope.
Local Open Scope string_scope.

(** ** Python string operations used by the script *)

Module Py.

(** [needle in hay] *)
Fixpoint contains (needle hay : string) : bool :=
  String.prefix needle hay
  || match hay with
     | EmptyString => false
     | String _ hay' => contains needle hay'
     end.

(** [s.startswith(p)] *)
Definition startswith (p s : string) : bool := String.prefix p s.

(** [s.endswith(c)] for a one-character [c] *)
Fixpoint endswith_char (c : ascii) (s : string) : bool :=
  match s with
  | EmptyString => false
  | String a EmptyString => Ascii.eqb a c
  | String _ s' => endswith_char c s'
  end.

(** [s.split(sep)] for a one-character separator: the result is never
    empty, and an empty [s] gives [['']]. *)
Fixpoint split (sep : ascii) (s : string) : list string :=
  match s with
  | EmptyString => [EmptyString]
  | String a s' =>
      if Ascii.eqb a sep then EmptyString :: split sep s'
      else match split sep s' with
           | x :: xs => String a x :: xs
           | [] => [String a EmptyString]
           end
  end.

(** [c.isspace()] on the code points below 256: TAB, LF, VT, FF, CR,
    FS, GS, RS, US, SPACE, NEL and NBSP. *)
Definition isspace (c : ascii) : bool :=
  let n := N_of_ascii c in
  ((9 <=? n) && (n <=? 13) || (28 <=? n) && (n <=? 32)
   || (n =? 133) || (n =? 160))%N.

Fixpoint lstrip (s : string) : string :=
  match s with
  | EmptyString => EmptyString
  | String a s' => if isspace a then lstrip s' else s
  end.

Fixpoint rstrip (s : string) : string :=
  match s with
  | EmptyString => EmptyString
  | String a s' =>
      match rstrip s' with
      | EmptyString => if isspace a then EmptyString else String a EmptyString
      | r => String a r
      end
  end.

(** [s.strip()] *)
Definition strip (s : string) : string := rstrip (lstrip s).

(** [str(n)] for an [int] *)
Definition str_of_int (n : Z) : string := NilZero.string_of_int (Z.to_int n).

(** [str(b)] for a [bool] *)
Definition str_of_bool (b : bool) : string := if b then "True" else "False".

End Py.

(** ** [posixpath.join] *)

Definition sep : ascii := "/"%char.

Definition join_step (path b : string) : string :=
  if Py.startswith "/" b then b
  else if (String.eqb path "" || Py.endswith_char sep path)%bool then path ++ b
  else path ++ "/" ++ b.

(** [os.path.join(a, *p)] *)
Definition os_path_join (a : string) (p : list string) : string :=
  fold_left join_step p a.

(** ** The regular expressions of the script

    The fragment of [re] the three patterns are written in: literal
    characters, bracketed classes, a greedy [+] on a class, groups and
    concatenation.  Matching is by backtracking, as in [re]: the greedy
    [+] takes the longest run first and gives characters back while the
    rest of the pattern fails. *)

Module Re.

Inductive crange := Range (lo hi : ascii).

Definition in_range (c : ascii) (r : crange) : bool :=
  let 'Range lo hi := r in
  ((N_of_ascii lo <=? N_of_ascii c) && (N_of_ascii c <=? N_of_ascii hi))%N.

Definition in_class (cs : list crange) (c : ascii) : bool :=
  existsb (in_range c) cs.

Inductive regex :=
| Lit (c : ascii)
| Class (cs : list crange)
| Plus (cs : list crange)
| Group (r : regex)
| Cat (r1 r2 : regex).

(** The text between the start [s] of a match and what is left, [s']. *)
Definition consumed (s s' : string) : string :=
  substring 0 (String.length s - String.length s') s.

Definition cont := string -> list string -> option (string * list string).

(** Zero or more characters of the class, longest first. *)
Fixpoint star (cs : list crange) (k : cont) (s : string) (gs : list string)
  : option (string * list string) :=
  match s with
  | String a s' =>
      if in_class cs a then
        match star cs k s' gs with
        | Some res => Some res
        | None => k s gs
        end
      else k s gs
  | EmptyString => k s gs
  end.

Fixpoint match_k (r : regex) (s : string) (gs : list string) (k : cont)
  : option (string * list string) :=
  match r with
  | Lit c =>
      match s with
      | String a s' => if Ascii.eqb a c then k s' gs else None
      | EmptyString => None
      end
  | Class cs =>
      match s with
      | String a s' => if in_class cs a then k s' gs else None
      | EmptyString => None
      end
  | Plus cs =>
      match s with
      | String a s' => if in_class cs a then star cs k s' gs else None
      | EmptyString => None
      end
  | Group r' => match_k r' s gs (fun s' gs' => k s' (gs' ++ [consumed s s'])%list)
  | Cat r1 r2 => match_k r1 s gs (fun s' gs' => match_k r2 s' gs' k)
  end.

(** A match object: [group()] and [groups()]. *)
Record Match := { group : string; groups : list string }.

(** [pattern.match(s)]: a match at the start of [s] *)
Definition rmatch (r : regex) (s : string) : option Match :=
  match match_k r s [] (fun s' gs => Some (s', gs)) with
  | Some (s', gs) => Some {| group := consumed s s'; groups := gs |}
  | None => None
  end.

(** [pattern.search(s)]: the leftmost match *)
Fixpoint search (r : regex) (s : string) : option Match :=
  match rmatch r s with
  | Some m => Some m
  | None =>
      match s with
      | String _ s' => search r s'
      | EmptyString => None
      end
  end.

End Re.

Import Re.

Definition letters_digits : list crange :=
  [Range "A" "Z"; Range "a" "z"; Range "0" "9"]%char.

(** [ALPHA_NUMERIC = re.compile(r'([A-Za-z0-9])')] *)
Definition ALPHA_NUMERIC : regex := Group (Class letters_digits).

(** [[A-Za-z0-9 ,]] *)
Definition region_chars : list crange :=
  [Range "A" "Z"; Range "a" "z"; Range "0" "9"; Range " " " "; Range "," ","]%char.

(** [REGION = re.compile(r'\(([A-Za-z0-9 ,]+)\)')] *)
Definition REGION : regex :=
  Cat (Lit "(") (Cat (Group (Plus region_chars)) (Lit ")")).

(** [NUMERIC = re.compile(r'\d+')] *)
Definition NUMERIC : regex := Plus [Range "0" "9"]%char.

(** ** The world the script runs in

    The file system is the operating system's: the script sees it through
    [os.path.exists], [os.makedirs] and [shutil.copyfile].  A creation
    or a copy may fail with an exception, and a call that fails may have
    changed the file system before it did ([os.makedirs] is recursive and
    may have made parent directories, [shutil.copyfile] may have created
    or truncated the destination): a failure comes with the file system
    it leaves.  The world also holds the log and, as a history, the
    operating system calls made so far. *)

Inductive exn :=
| IndexError
| OSError (msg : string)
| OtherError (msg : string).

Inductive log_record :=
| LogInfo (msg : string)
| LogWarning (msg : string)
| LogError (msg : string)
| LogException (msg : string).

Inductive os_call :=
| CallExists (path : string)
| CallMakedirs (path : string)
| CallCopyfile (src dst : string).

Class OS (fs : Type) := {
  path_exists : fs -> string -> bool;
  makedirs : fs -> string -> fs + exn * fs;
  copyfile : fs -> string -> string -> fs + exn * fs
}.

Record world (fs : Type) := World {
  files : fs;
  log : list log_record;
  calls : list os_call
}.
Arguments World {fs}.
Arguments files {fs}.
Arguments log {fs}.
Arguments calls {fs}.

(** How a computation ends: it returns, the process exits ([sys.exit]),
    or an exception propagates. *)
Inductive result (fs A : Type) :=
| Ret (a : A) (w : world fs)
| Exit (code : Z) (w : world fs)
| Raise (e : exn) (w : world fs).
Arguments Ret {fs A}.
Arguments Exit {fs A}.
Arguments Raise {fs A}.

Definition world_of {fs A} (r : result fs A) : world fs :=
  match r with
  | Ret _ w | Exit _ w | Raise _ w => w
  end.

Definition M (fs A : Type) : Type := world fs -> result fs A.

Definition ret {fs A} (a : A) : M fs A := fun w => Ret a w.

Definition bind {fs A B} (c : M fs A) (k : A -> M fs B) : M fs B :=
  fun w =>
    match c w with
    | Ret a w' => k a w'
    | Exit code w' => Exit code w'
    | Raise e w' => Raise e w'
    end.

Notation "x <- c1 ;; c2" := (bind c1 (fun x => c2))
  (at level 61, c1 at next level, right associativity).
Notation "c1 ;; c2" := (bind c1 (fun _ => c2))
  (at level 61, right associativity).

Definition raise {fs A} (e : exn) : M fs A := fun w => Raise e w.

(** [sys.exit(code)] *)
Definition sys_exit {fs A} (code : Z) : M fs A := fun w => Exit code w.

(** [try: body except OSError as e: handler(e)] *)
Definition try_except_OSError {fs A} (body : M fs A) (handler : string -> M fs A)
  : M fs A :=
  fun w =>
    match body w with
    | Raise (OSError e) w' => handler e w'
    | r => r
    end.

(** [l[i]] *)
Definition getitem {fs A} (l : list A) (i : nat) : M fs A :=
  match nth_error l i with
  | Some x => ret x
  | None => raise IndexError
  end.

Definition add_log {fs} (r : log_record) (w : world fs) : world fs :=
  World (files w) (log w ++ [r])%list (calls w).

Definition add_call {fs} (c : os_call) (w : world fs) : world fs :=
  World (files w) (log w) (calls w ++ [c])%list.

Definition set_files {fs} (f : fs) (w : world fs) : world fs :=
  World f (log w) (calls w).

Definition logging {fs} (r : log_record) : M fs unit :=
  fun w => Ret tt (add_log r w).

Definition log_info {fs} (msg : string) : M fs unit := logging (LogInfo msg).
Definition log_warning {fs} (msg : string) : M fs unit := logging (LogWarning msg).
Definition log_error {fs} (msg : string) : M fs unit := logging (LogError msg).
Definition log_exception {fs} (msg : string) : M fs unit := logging (LogException msg).

(** The parsed command line, the script's global [args].  With [debug]
    or without, the logger lets through every record the script emits
    (information, warning and error levels). *)
Record Args := {
  debug : bool;
  input_dir : string;
  output_dir : string
}.

Section Script.

Context {fs : Type} {os : OS fs}.

Definition os_path_exists (path : string) : M fs bool :=
  fun w => Ret (path_exists (files w) path) (add_call (CallExists path) w).

Definition os_makedirs (path : string) : M fs unit :=
  fun w =>
    let w' := add_call (CallMakedirs path) w in
    match makedirs (files w) path with
    | inl f => Ret tt (set_files f w')
    | inr (e, f) => Raise e (set_files f w')
    end.

Definition shutil_copyfile (src dst : string) : M fs unit :=
  fun w =>
    let w' := add_call (CallCopyfile src dst) w in
    match copyfile (files w) src dst with
    | inl f => Ret tt (set_files f w')
    | inr (e, f) => Raise e (set_files f w')
    end.

Variable args : Args.

Definition abort {A} (message : string) : M fs A :=
  log_exception message ;;
  log_error "Aborted" ;;
  sys_exit 1.

Definition log_args : M fs unit :=
  log_info "*** Script Arguments Begin ***" ;;
  log_info ("debug: " ++ Py.str_of_bool (debug args)) ;;
  log_info ("input_dir: " ++ input_dir args) ;;
  log_info ("output_dir: " ++ output_dir args) ;;
  log_info "*** Script Arguments End ***".

Definition create_dir (dir : string) : M fs unit :=
  try_except_OSError
    (os_makedirs dir)
    (fun e => log_error e ;; abort ("Failed to create " ++ dir)).

Definition get_destination_dir (region first_char : string) : string :=
  if existsb (String.eqb region) ["Europe"; "Japan"; "USA"]
  then os_path_join (output_dir args) [region; first_char]
  else os_path_join (output_dir args) ["Other"; region].

(** The first part of [move_game] (lines 78 to 92): the region of a file
    name. *)
Definition resolve_region (game : string) : M fs string :=
  match search REGION game with
  | Some m =>
      region <- getitem (groups m) 0 ;;
      if Py.contains "," region then
        if Py.contains "USA" region then ret "USA"
        else
          first <- getitem (Py.split "," region) 0 ;;
          ret (Py.strip first)
      else ret region
  | None =>
      log_warning ("Unable to find region in '" ++ game
                   ++ "'; defaulting to USA") ;;
      ret "USA"
  end.

(** Lines 98 to 102 of [move_game]: the bucket of a file name whose
    first alphanumeric character was matched by [m]. *)
Definition bucket (m : Match) : string :=
  let first_char := group m in
  match rmatch NUMERIC first_char with
  | Some _ => "#"
  | None => first_char
  end.

Definition move_game (game : string) : M fs unit :=
  region <- resolve_region game ;;
  match search ALPHA_NUMERIC game with
  | None =>
      log_warning ("Unable to determine the first alpha numeric character in '"
                   ++ game ++ "'; skipping")
  | Some m =>
      let first_char := bucket m in
      let destination_dir := get_destination_dir region first_char in
      dir_exists <- os_path_exists destination_dir ;;
      (if negb dir_exists then
         log_info (destination_dir ++ " not found; attempting to create") ;;
         create_dir destination_dir
       else ret tt) ;;
      let source := os_path_join (input_dir args) [game] in
      let destination := os_path_join destination_dir [game] in
      log_info ("Copy from " ++ source ++ " to " ++ destination) ;;
      shutil_copyfile source destination
  end.

(** One round of the inner loop of [organize]. *)
Definition organize_game (game : string) (game_count : Z) : M fs Z :=
  if Py.contains "BIOS" game then
    log_info ("Skipping BIOS file: " ++ game) ;;
    ret game_count
  else
    move_game game ;;
    ret (game_count + 1)%Z.

(** [for game in games: ...] *)
Fixpoint for_games (games : list string) (game_count : Z) : M fs Z :=
  match games with
  | [] => ret game_count
  | game :: rest =>
      game_count' <- organize_game game game_count ;;
      for_games rest game_count'
  end.

(** A triple yielded by [os.walk]: [(dirpath, dirnames, filenames)]. *)
Definition walk_entry : Type := string * list string * list string.

(** [for _, _, games in os.walk(args.input_dir): ...], over the triples
    the walk yields. *)
Fixpoint for_walk (walk : list walk_entry) (game_count : Z) : M fs Z :=
  match walk with
  | [] => ret game_count
  | (_, _, games) :: rest =>
      game_count' <- for_games games game_count ;;
      for_walk rest game_count'
  end.

Definition organize (walk : list walk_entry) : M fs Z :=
  input_exists <- os_path_exists (input_dir args) ;;
  (if negb input_exists then
     abort ("Input directory: '" ++ input_dir args ++ "' doesn't exist!")
   else ret tt) ;;
  output_exists <- os_path_exists (output_dir args) ;;
  (if negb output_exists then
     log_info (output_dir args ++ " not found; attempting to create") ;;
     create_dir (output_dir args)
   else ret tt) ;;
  for_walk walk 0%Z.

(** The body of [__main__], once [args] is parsed and the logger set up. *)
Definition main (walk : list walk_entry) : M fs unit :=
  log_info "Start" ;;
  log_args ;;
  game_count <- organize walk ;;
  log_info ("Processed " ++ Py.str_of_int game_count ++ " games") ;;
  log_info "Finish".

End Script.

(** ** [os.walk] over a directory tree

    A directory holds files and named subdirectories.  The walk is top
    down: a directory's own triple first, then the walks of its
    subdirectories, each rooted at the directory's path joined with the
    subdirectory's name. *)

#[warnings="-register-all"]
Inductive dirtree := Dir (filenames : list string) (subdirs : list (string * dirtree)).

Fixpoint os_walk (top : string) (t : dirtree) : list walk_entry :=
  match t with
  | Dir filenames subdirs =>
      (top, map fst subdirs, filenames)
      :: flat_map (fun d => os_walk (os_path_join top [fst d]) (snd d)) subdirs
  end.

(** ** A file system to run the script on

    The paths that exist, and the paths whose creation or copy is refused.
    A creation that is refused has made the parent directory first, as the
    recursive [os.makedirs] does. *)

Record simple_fs := SimpleFs {
  present : list string;
  read_only : list string
}.

Definition mem (p : string) (l : list string) : bool := existsb (String.eqb p) l.

(** The path without its last component. *)
Fixpoint parent_dir (p : string) : string :=
  match p with
  | EmptyString => EmptyString
  | String a p' => if Py.contains "/" p' then String a (parent_dir p') else EmptyString
  end.

Definition with_parent (f : simple_fs) (p : string) : simple_fs :=
  if (String.eqb (parent_dir p) "" || mem (parent_dir p) (present f))%bool then f
  else SimpleFs (parent_dir p :: present f) (read_only f).

#[export] Instance simple_os : OS simple_fs := {
  path_exists f p := mem p (present f);
  makedirs f p :=
    if mem p (read_only f) then
      inr (OSError ("[Errno 13] Permission denied: '" ++ p ++ "'"), with_parent f p)
    else if mem p (present f) then
      inr (OSError ("[Errno 17] File exists: '" ++ p ++ "'"), f)
    else inl (SimpleFs (p :: present f) (read_only f));
  copyfile f src dst :=
    if mem src (present f) then
      if mem dst (read_only f) then
        inr (OSError ("[Errno 13] Permission denied: '" ++ dst ++ "'"), f)
      else inl (SimpleFs (dst :: present f) (read_only f))
    else inr (OSError ("[Errno 2] No such file or directory: '" ++ src ++ "'"), f)
}.

Definition start (f : simple_fs) : world simple_fs := World f [] [].

(** A file system that refuses nothing: the paths that exist. *)
Record open_fs := OpenFs { paths : list string }.

#[export] Instance open_os : OS open_fs := {
  path_exists f p := mem p (paths f);
  makedirs f p := inl (OpenFs (p :: paths f));
  copyfile f src dst := inl (OpenFs (dst :: paths f))
}.

(** A file system with no room left: directories can be made, and every
    copy fails after it has created its destination. *)
Record full_fs := FullFs { stored : list string }.

#[export] Instance full_os : OS full_fs := {
  path_exists f p := mem p (stored f);
  makedirs f p := inl (FullFs (p :: stored f));
  copyfile f src dst :=
    inr (OSError "[Errno 28] No space left on device", FullFs (dst :: stored f))
}.

(** ** Vocabulary of the specification *)

(** [n] occurs in [h] *)
Definition substr (n h : string) : Prop := exists a b, h = a ++ n ++ b.

(** Every character of [s] satisfies [p]. *)
Fixpoint forall_chars (p : ascii -> bool) (s : string) : bool :=
  match s with
  | EmptyString => true
  | String a s' => p a && forall_chars p s'
  end.

(** The longest head of [s] in the class, and what follows it. *)
Fixpoint run (cs : list crange) (s : string) : string :=
  match s with
  | String a s' => if in_class cs a then String a (run cs s') else ""
  | EmptyString => ""
  end.

Fixpoint after_run (cs : list crange) (s : string) : string :=
  match s with
  | String a s' => if in_class cs a then after_run cs s' else s
  | EmptyString => ""
  end.

(** The match object of a region group [g]: the whole match is the group
    with its brackets, the one captured text is [g]. *)
Definition region_match (g : string) : Match :=
  {| group := "(" ++ g ++ ")"; groups := [g] |}.

(** A parenthesized region group of [game]: a bracket, a non-empty text
    [g] of letters, digits, spaces and commas, and the closing bracket. *)
Definition region_group_at (game pre g post : string) : Prop :=
  game = pre ++ "(" ++ g ++ ")" ++ post /\ g <> ""
  /\ forall_chars (in_class region_chars) g = true.

(** [g] is the first such group of [game]: none starts further left. *)
Definition first_region_group (game g : string) : Prop :=
  exists pre post,
    region_group_at game pre g post
    /\ forall pre' g' post', region_group_at game pre' g' post' ->
         String.length pre <= String.length pre'.

Definition no_region_group (game : string) : Prop :=
  forall pre g post, ~ region_group_at game pre g post.

Definition alnum (c : ascii) : bool := in_class letters_digits c.
Definition digit (c : ascii) : bool := in_class [Range "0" "9"]%char c.

(** [c] is the first letter or digit of [game]. *)
Definition first_alnum (game : string) (c : ascii) : Prop :=
  exists pre post,
    game = pre ++ String c post
    /\ forall_chars (fun a => negb (alnum a)) pre = true
    /\ alnum c = true.

Definition no_alnum (game : string) : Prop :=
  forall_chars (fun a => negb (alnum a)) game = true.

Definition comma : ascii := ","%char.

Definition no_comma (s : string) : Prop :=
  forall_chars (fun a => negb (Ascii.eqb a comma)) s = true.

(** [r] is [s] without the white space around it *)
Definition trimmed (s r : string) : Prop :=
  exists l t,
    s = l ++ r ++ t
    /\ forall_chars Py.isspace l = true /\ forall_chars Py.isspace t = true
    /\ (forall a u, r = String a u -> Py.isspace a = false)
    /\ (forall u a, r = u ++ String a "" -> Py.isspace a = false).

(** What lines 85 to 89 make of the text [g] of a region group. *)
Definition region_of_group (g : string) : string :=
  if Py.contains "," g then
    if Py.contains "USA" g then "USA"
    else Py.strip (hd "" (Py.split comma g))
  else g.

Definition no_region_warning (game : string) : log_record :=
  LogWarning ("Unable to find region in '" ++ game ++ "'; defaulting to USA").

Definition bucket_of_char (c : ascii) : string :=
  if digit c then "#" else String c "".

Definition skip_warning (game : string) : log_record :=
  LogWarning ("Unable to determine the first alpha numeric character in '"
              ++ game ++ "'; skipping").

(** A directory path ready to take a component: itself when empty or
    ending in a separator, else with a separator added. *)
Definition as_dir (path : string) : string :=
  if (String.eqb path "" || Py.endswith_char sep path)%bool then path
  else path ++ "/".

Definition privileged (region : string) : Prop :=
  region = "Europe" \/ region = "Japan" \/ region = "USA".

(** A file is skipped when [move_game] returns to the loop without a
    system call: no directory probed or created, nothing copied. *)
Definition skipped {fs : Type} {os : OS fs} (args : Args) (game : string)
  (w : world fs) : Prop :=
  exists w', move_game args game w = Ret tt w'
             /\ files w' = files w /\ calls w' = calls w.

(** The system calls a computation makes from the world [w] on. *)
Definition calls_during {fs A : Type} (c : M fs A) (w : world fs) : list os_call :=
  skipn (List.length (calls w)) (calls (world_of (c w))).

(** A name as a directory listing gives it: not empty, no separator. *)
Definition plain_name (n : string) : Prop :=
  n <> "" /\ forall_chars (fun a => negb (Ascii.eqb a sep)) n = true.

Fixpoint wf_tree (t : dirtree) : Prop :=
  match t with
  | Dir filenames subdirs =>
      Forall plain_name filenames
      /\ (fix wf_subdirs (l : list (string * dirtree)) : Prop :=
            match l with
            | [] => True
            | d :: l' => plain_name (fst d) /\ wf_tree (snd d) /\ wf_subdirs l'
            end) subdirs
  end.

Definition not_BIOS (game : string) : bool := negb (Py.contains "BIOS" game).

(** Every system call a computation makes, from any world, satisfies
    [P]; the history of calls is only added to. *)
Definition emits {fs A : Type} (P : os_call -> Prop) (c : M fs A) : Prop :=
  forall w : world fs,
    exists delta,
      calls (world_of (c w)) = (calls w ++ delta)%list /\ Forall P delta.

(** A copy whose source is the input root joined with one of [games]
    whose name does not contain [BIOS]; any call that is not a copy. *)
Definition copies_from (args : Args) (games : list string) (c : os_call) : Prop :=
  forall src dst,
    c = CallCopyfile src dst ->
    exists game,
      In game games /\ not_BIOS game = true
      /\ src = os_path_join (input_dir args) [game].

(** The records [log_args] writes. *)
Definition args_records (args : Args) : list log_record :=
  [LogInfo "*** Script Arguments Begin ***";
   LogInfo ("debug: " ++ Py.str_of_bool (debug args));
   LogInfo ("input_dir: " ++ input_dir args);
   LogInfo ("output_dir: " ++ output_dir args);
   LogInfo "*** Script Arguments End ***"].

(** The records of [abort]. *)
Definition abort_records (message : string) : list log_record :=
  [LogException message; LogError "Aborted"].

(** A world left by [abort]: its log ends with the records of [abort]. *)
Definition aborted {fs : Type} (w : world fs) : Prop :=
  exists l message, log w = (l ++ abort_records message)%list.

(** An exception the operating system raised: by [os.makedirs], and not
    an [OSError], or by [shutil.copyfile]. *)
Definition os_raised {fs : Type} {os : OS fs} (e : exn) : Prop :=
  (exists f path f', makedirs f path = inr (e, f')
                     /\ forall msg, e <> OSError msg)
  \/ (exists f src dst f', copyfile f src dst = inr (e, f')).

(** The ways the script ends: it returns, it exits with code 1 after
    [abort], or an exception of the operating system propagates. *)
Definition sound_result {fs : Type} {os : OS fs} {A : Type}
  (r : result fs A) : Prop :=
  match r with
  | Ret _ _ => True
  | Exit code w => code = 1%Z /\ aborted w
  | Raise e _ => os_raised e
  end.

Definition sound {fs : Type} {os : OS fs} {A : Type} (c : M fs A) : Prop :=
  forall w, sound_result (c w).

(** A file system that keeps its directories: a directory just created
    exists, and a copy removes no path. *)
Definition keeps_directories {fs : Type} (os : OS fs) : Prop :=
  (forall f path f', makedirs f path = inl f' -> path_exists f' path = true)
  /\ (forall f src dst f' path,
         copyfile f src dst = inl f' ->
         path_exists f path = true -> path_exists f' path = true).

Definition letter (c : ascii) : bool :=
  in_class [Range "A" "Z"; Range "a" "z"]%char c.

(** Letters, digits and the space: what a resolved region is made of. *)
Definition region_name_chars : list crange :=
  [Range "A" "Z"; Range "a" "z"; Range "0" "9"; Range " " " "]%char.

(** The file names of a walk that [organize] hands to [move_game]. *)
Definition processed (walk : list walk_entry) : list string :=
  filter not_BIOS (flat_map snd walk).

(** A call that stays under the roots: a probe; the creation of the
    output root or of a path under it; a copy from under the input root
    to under the output root. *)
Definition under_roots (args : Args) (x : os_call) : Prop :=
  match x with
  | CallExists _ => True
  | CallMakedirs d =>
      d = output_dir args \/ Py.startswith (as_dir (output_dir args)) d = true
  | CallCopyfile src dst =>
      Py.startswith (as_dir (input_dir args)) src = true
      /\ Py.startswith (as_dir (output_dir args)) dst = true
  end.

(** The file name has a letter or a digit. *)
Definition has_alnum (game : string) : bool :=
  negb (forall_chars (fun a => negb (alnum a)) game).

(** The file names of a list that get copied: no [BIOS], a bucket. *)
Definition routed (games : list string) : list string :=
  filter (fun game => not_BIOS game && has_alnum game) games.

(** The sources of the copies among some calls, in order. *)
Definition copy_sources (l : list os_call) : list string :=
  flat_map (fun x => match x with CallCopyfile src _ => [src] | _ => [] end) l.

(** An operating system on which no creation and no copy fails. *)
Definition never_fails {fs : Type} (os : OS fs) : Prop :=
  (forall f path, exists f', makedirs f path = inl f')
  /\ (forall f src dst, exists f', copyfile f src dst = inl f').

(** ** Sample inputs *)

Definition demo_args : Args :=
  {| debug := false; input_dir := "in"; output_dir := "out" |}.

Definition demo_fs : simple_fs :=
  SimpleFs ["in"; "in/Pac-Man Collection (USA).bin"; "in/---"] [].

Definition demo_tree : dirtree :=
  Dir ["Pac-Man Collection (USA).bin"]
      [("n64", Dir ["007 GoldenEye (Europe).rom"] [])].

(** A second run: another input root, the destination directory already
    there, a log and a history of calls behind it. *)
Definition rerun_args : Args :=
  {| debug := true; input_dir := "roms/"; output_dir := "out" |}.

Definition rerun_world : world simple_fs :=
  World (SimpleFs ["roms/"; "out"; "out/USA/P";
                   "roms/Pac-Man Collection (USA).bin"] [])
        [LogInfo "Start"] [CallExists "roms/"; CallExists "out"].

(** An empty file system, and one where nothing can be created under
    the output root. *)
Definition empty_fs : simple_fs := SimpleFs [] [].

Definition locked_fs : simple_fs :=
  SimpleFs ["in"; "out"; "in/Pac-Man Collection (USA).bin"]
           ["out/USA/P"].

Definition locked_root_fs : simple_fs := SimpleFs ["in"] ["out"].

(** An output root one level down, which cannot be created. *)
Definition deep_args : Args :=
  {| debug := false; input_dir := "in"; output_dir := "store/out" |}.

Definition locked_deep_fs : simple_fs := SimpleFs ["in"] ["store/out"].

(** The destination directory is there, the file to copy is not. *)
Definition missing_file_fs : simple_fs := SimpleFs ["in"; "out"; "out/USA/P"] [].

(** Induction on a directory tree, with the property at hand for every
    subdirectory. *)
Section DirtreeInd.

Variable P : dirtree -> Prop.
Hypothesis P_Dir :
  forall filenames subdirs,
    Forall (fun d => P (snd d)) subdirs -> P (Dir filenames subdirs).

Fixpoint dirtree_subdirs_ind (t : dirtree) : P t :=
  match t with
  | Dir filenames subdirs =>
      P_Dir filenames subdirs
        ((fix each (l : list (string * dirtree)) : Forall (fun d => P (snd d)) l :=
            match l with
            | [] => Forall_nil _
            | d :: l' => Forall_cons d (dirtree_subdirs_ind (snd d)) (each l')
            end) subdirs)
  end.

End DirtreeInd.

(** ** Strings: concatenation, substrings, runs of a character class *)

Lemma append_nil_r (s : string) : s ++ "" = s.
Proof. induction s; simpl; congruence. Qed.

Lemma append_assoc (a b c : string) : (a ++ b) ++ c = a ++ b ++ c.
Proof. induction a; simpl; congruence. Qed.

Lemma length_append (a b : string) :
  String.length (a ++ b) = String.length a + String.length b.
Proof. induction a; simpl; congruence. Qed.

Lemma append_inv_head (a b c : string) : a ++ b = a ++ c -> b = c.
Proof. induction a; simpl; intros H; [assumption | injection H; auto]. Qed.

(** Two ways of cutting one string: the shorter head is a head of the longer. *)
Lemma append_eq_append (a b c d : string) :
  a ++ b = c ++ d -> String.length c < String.length a ->
  exists e, e <> "" /\ a = c ++ e /\ d = e ++ b.
Proof.
  revert a; induction c as [|x c IH]; intros a H L; simpl in *.
  - exists a; repeat split; auto. intros ->; simpl in L; lia.
  - destruct a as [|y a]; simpl in *; [lia|].
    injection H as -> H.
    destruct (IH a H ltac:(lia)) as (e & He & -> & ->).
    exists e; auto.
Qed.

Lemma prefix_append (p s : string) : String.prefix p (p ++ s) = true.
Proof.
  induction p as [|a p IH]; simpl; [destruct s; reflexivity|].
  destruct (ascii_dec a a); [assumption | contradiction].
Qed.

Lemma prefix_inv (p s : string) :
  String.prefix p s = true -> exists t, s = p ++ t.
Proof.
  revert s; induction p as [|a p IH]; intros s H.
  - exists s; reflexivity.
  - destruct s as [|b s]; simpl in H; [discriminate|].
    destruct (ascii_dec a b) as [->|]; [|discriminate].
    destruct (IH s H) as (t & ->). exists t; reflexivity.
Qed.

Lemma contains_substr (n h : string) : Py.contains n h = true <-> substr n h.
Proof.
  split.
  - induction h as [|x h IH]; cbn [Py.contains]; intros H.
    + rewrite orb_false_r in H. destruct (prefix_inv _ _ H) as (t & Ht).
      exists "", t; assumption.
    + apply orb_true_iff in H as [H|H].
      * destruct (prefix_inv _ _ H) as (t & Ht). exists "", t; assumption.
      * destruct (IH H) as (a & b & ->). exists (String x a), b; reflexivity.
  - intros (a & b & ->). induction a as [|x a IH]; cbn [Py.contains append].
    + destruct (n ++ b) eqn:E; cbn [Py.contains]; rewrite <- E, prefix_append;
        reflexivity.
    + rewrite IH. apply orb_true_r.
Qed.

Lemma substr_trans (a b c : string) : substr a b -> substr b c -> substr a c.
Proof.
  intros (x & y & ->) (u & v & ->).
  exists (u ++ x), (y ++ v). now rewrite !append_assoc.
Qed.

Lemma substr_refl (a : string) : substr a a.
Proof. exists "", "". simpl. now rewrite append_nil_r. Qed.

Lemma consumed_append (x y : string) : consumed (x ++ y) y = x.
Proof.
  unfold consumed. rewrite length_append.
  replace (String.length x + String.length y - String.length y)
    with (String.length x) by lia.
  induction x as [|a x IH]; simpl; [destruct y; reflexivity | congruence].
Qed.

Lemma consumed_String (a : ascii) (s : string) :
  consumed (String a s) s = String a "".
Proof. apply (consumed_append (String a "") s). Qed.

Lemma forall_chars_append p (a b : string) :
  forall_chars p (a ++ b) = forall_chars p a && forall_chars p b.
Proof. induction a; simpl; [reflexivity | rewrite IHa; apply andb_assoc]. Qed.

Lemma run_after_run cs s : s = run cs s ++ after_run cs s.
Proof. induction s as [|a s IH]; simpl; [|destruct in_class; simpl]; congruence. Qed.

Lemma run_in_class cs s : forall_chars (in_class cs) (run cs s) = true.
Proof.
  induction s as [|a s IH]; simpl; [reflexivity|].
  destruct (in_class cs a) eqn:E; simpl; [rewrite E|]; auto.
Qed.

Lemma run_stops cs (g : string) c (t : string) :
  forall_chars (in_class cs) g = true -> in_class cs c = false ->
  run cs (g ++ String c t) = g /\ after_run cs (g ++ String c t) = String c t.
Proof.
  intros Hg Hc. induction g as [|a g IH]; simpl in *.
  - rewrite Hc; auto.
  - apply andb_true_iff in Hg as [-> Hg]. destruct (IH Hg) as [-> ->]; auto.
Qed.

(** ** The matcher *)

(** Where the rest of the pattern cannot start on a character of the
    class, the greedy run stops exactly at the end of the class. *)
Lemma star_greedy cs (k : cont) :
  (forall a s gs, in_class cs a = true -> k (String a s) gs = None) ->
  forall s gs, star cs k s gs = k (after_run cs s) gs.
Proof.
  intros Hk s gs. induction s as [|a s IH]; simpl; [reflexivity|].
  destruct (in_class cs a) eqn:E; [|reflexivity].
  rewrite IH. destruct (k (after_run cs s) gs) eqn:K; [reflexivity|].
  now apply Hk.
Qed.

Lemma search_found r (pre t : string) m :
  rmatch r t = Some m ->
  (forall p1 p2, pre = p1 ++ p2 -> p2 <> "" -> rmatch r (p2 ++ t) = None) ->
  search r (pre ++ t) = Some m.
Proof.
  intros Hm. induction pre as [|a pre IH]; intros Hpre; cbn [append].
  - destruct t; cbn [search]; rewrite Hm; reflexivity.
  - pose proof (Hpre "" (String a pre) eq_refl ltac:(discriminate)) as E.
    cbn [append] in E. cbn [search]. rewrite E.
    apply IH. intros p1 p2 -> Hp2. now apply (Hpre (String a p1) p2).
Qed.

Lemma search_Some r s m :
  search r s = Some m ->
  exists pre t, s = pre ++ t /\ rmatch r t = Some m
    /\ forall p1 p2, pre = p1 ++ p2 -> p2 <> "" -> rmatch r (p2 ++ t) = None.
Proof.
  induction s as [|a s IH]; cbn [search].
  - destruct (rmatch r "") eqn:E; [|discriminate]. intros [= ->].
    exists "", ""; repeat split; auto.
    intros [|] p2 H; simpl in H; [subst; congruence | discriminate].
  - destruct (rmatch r (String a s)) eqn:E.
    + intros [= ->]. exists "", (String a s); repeat split; auto.
      intros [|] p2 H; simpl in H; [subst; congruence | discriminate].
    + intros H. destruct (IH H) as (pre & t & -> & Hm & Hpre).
      exists (String a pre), t; repeat split; auto.
      intros [|b p1] p2 Hp Hp2; simpl in Hp.
      * subst p2. exact E.
      * injection Hp as _ Hp. now apply (Hpre p1 p2).
Qed.

Lemma search_None r (pre t : string) :
  search r (pre ++ t) = None -> rmatch r t = None.
Proof.
  induction pre as [|a pre IH]; cbn [append search].
  - destruct t; cbn [search]; destruct (rmatch r _); congruence.
  - destruct (rmatch r (String a (pre ++ t))); [discriminate | exact IH].
Qed.

Lemma search_None_intro r s :
  (forall pre t, s = pre ++ t -> rmatch r t = None) -> search r s = None.
Proof.
  induction s as [|a s IH]; intros H; cbn [search].
  - now rewrite (H "" "" eq_refl).
  - rewrite (H "" (String a s) eq_refl). apply IH.
    intros pre t ->. now apply (H (String a pre) t).
Qed.

(** *** [REGION] *)

Lemma region_chars_not_close a :
  in_class region_chars a = true -> Ascii.eqb a ")" = false.
Proof.
  intros H. destruct (Ascii.eqb_spec a ")") as [->|]; [|reflexivity].
  vm_compute in H. discriminate.
Qed.

Lemma rmatch_REGION (s : string) :
  rmatch REGION s =
  match s with
  | String a (String b s2) =>
      if Ascii.eqb a "(" then
        if in_class region_chars b then
          match after_run region_chars s2 with
          | String c s3 =>
              if Ascii.eqb c ")" then
                Some {| group := consumed s s3;
                        groups := [consumed (String b s2) (after_run region_chars s2)] |}
              else None
          | EmptyString => None
          end
        else None
      else None
  | _ => None
  end.
Proof.
  unfold rmatch, REGION. cbn [match_k].
  destruct s as [|a [|b s2]]; try reflexivity.
  - destruct (Ascii.eqb a "("); reflexivity.
  - destruct (Ascii.eqb a "("); [|reflexivity].
    destruct (in_class region_chars b); [|reflexivity].
    rewrite star_greedy.
    + destruct (after_run region_chars s2) as [|c s3]; [reflexivity|].
      destruct (Ascii.eqb c ")"); reflexivity.
    + intros x t gs Hx. now rewrite (region_chars_not_close x Hx).
Qed.

Lemma rmatch_REGION_intro (g post : string) :
  g <> "" -> forall_chars (in_class region_chars) g = true ->
  rmatch REGION ("(" ++ g ++ ")" ++ post) = Some (region_match g).
Proof.
  intros Hne Hg. rewrite rmatch_REGION.
  destruct g as [|b g]; [contradiction|]. cbn [append forall_chars] in *.
  apply andb_true_iff in Hg as [Hb Hg]. rewrite Hb.
  change (Ascii.eqb "(" "(") with true. cbv iota.
  destruct (run_stops region_chars g ")"%char post Hg eq_refl) as [_ ->].
  change (Ascii.eqb ")" ")") with true. cbv iota.
  unfold region_match. f_equal. f_equal.
  - replace (String "(" (String b (g ++ String ")" post)))
      with (("(" ++ String b g ++ ")") ++ post)
      by (cbn [append]; now rewrite append_assoc).
    apply consumed_append.
  - f_equal. apply (consumed_append (String b g) (String ")" post)).
Qed.

Lemma rmatch_REGION_elim (s : string) m :
  rmatch REGION s = Some m ->
  exists g post, s = "(" ++ g ++ ")" ++ post /\ g <> ""
    /\ forall_chars (in_class region_chars) g = true /\ m = region_match g.
Proof.
  intros H. pose proof H as H0. rewrite rmatch_REGION in H0.
  destruct s as [|a [|b s2]]; try discriminate.
  destruct (Ascii.eqb_spec a "(") as [->|]; [|discriminate].
  destruct (in_class region_chars b) eqn:Hb; [|discriminate].
  destruct (after_run region_chars s2) as [|c s3] eqn:Hs; [discriminate|].
  destruct (Ascii.eqb_spec c ")") as [->|]; [|discriminate].
  clear H0.
  pose proof (run_after_run region_chars s2) as E. rewrite Hs in E.
  pose proof (run_in_class region_chars s2) as Hg.
  set (g := run region_chars s2) in *. clearbody g. subst s2.
  assert (Hbg : forall_chars (in_class region_chars) (String b g) = true)
    by (cbn [forall_chars]; now rewrite Hb, Hg).
  change (String "(" (String b (g ++ String ")" s3)))
    with ("(" ++ String b g ++ ")" ++ s3) in *.
  rewrite rmatch_REGION_intro in H by (discriminate || assumption).
  injection H as <-.
  exists (String b g), s3. repeat split; try discriminate; assumption.
Qed.

Lemma search_REGION_first (game g : string) :
  first_region_group game g <-> search REGION game = Some (region_match g).
Proof.
  split.
  - intros (pre & post & (-> & Hne & Hg) & Hmin).
    apply search_found; [now apply rmatch_REGION_intro|].
    intros p1 p2 -> Hp2.
    destruct (rmatch REGION (p2 ++ "(" ++ g ++ ")" ++ post)) eqn:E;
      [exfalso | reflexivity].
    apply rmatch_REGION_elim in E as (g' & post' & E & Hne' & Hg' & _).
    specialize (Hmin p1 g' post').
    rewrite length_append in Hmin.
    assert (String.length p2 <> 0) by (destruct p2; [congruence | discriminate]).
    enough (String.length p1 + String.length p2 <= String.length p1) by lia.
    apply Hmin. repeat split; auto. now rewrite append_assoc, E.
  - intros H. apply search_Some in H as (pre & t & -> & Hm & Hpre).
    apply rmatch_REGION_elim in Hm as (g0 & post & -> & Hne & Hg & Hm).
    injection Hm as _ ->.
    exists pre, post. split; [repeat split; auto|].
    intros pre' g' post' (E & Hne' & Hg').
    destruct (Nat.le_gt_cases (String.length pre) (String.length pre'))
      as [|L]; [assumption | exfalso].
    destruct (append_eq_append _ _ _ _ E L) as (e & He & -> & Ht).
    specialize (Hpre pre' e eq_refl He). rewrite <- Ht in Hpre.
    now rewrite rmatch_REGION_intro in Hpre.
Qed.

Lemma search_REGION_none (game : string) :
  no_region_group game <-> search REGION game = None.
Proof.
  split.
  - intros H. apply search_None_intro. intros pre t ->.
    destruct (rmatch REGION t) eqn:E; [exfalso | reflexivity].
    apply rmatch_REGION_elim in E as (g & post & -> & Hne & Hg & _).
    apply (H pre g post). repeat split; auto.
  - intros H pre g post (-> & Hne & Hg).
    apply search_None in H. now rewrite rmatch_REGION_intro in H.
Qed.

(** Every match of [REGION] is the match object of a region group. *)
Lemma search_REGION_match (game : string) m :
  search REGION game = Some m ->
  exists g, m = region_match g /\ first_region_group game g.
Proof.
  intros H. destruct (search_Some _ _ _ H) as (pre & t & _ & Hm & _).
  apply rmatch_REGION_elim in Hm as (g & _ & _ & _ & _ & ->).
  exists g. split; [reflexivity | now apply search_REGION_first].
Qed.

(** *** [ALPHA_NUMERIC] and [NUMERIC] *)

Lemma rmatch_ALPHA_NUMERIC (s : string) :
  rmatch ALPHA_NUMERIC s =
  match s with
  | String a _ =>
      if alnum a then Some {| group := String a ""; groups := [String a ""] |}
      else None
  | EmptyString => None
  end.
Proof.
  unfold rmatch, ALPHA_NUMERIC, alnum. cbn [match_k].
  destruct s as [|a s]; [reflexivity|].
  destruct (in_class letters_digits a); [|reflexivity].
  cbn [app]. now rewrite consumed_String.
Qed.

Lemma search_ALPHA_NUMERIC_first (game : string) (c : ascii) :
  first_alnum game c ->
  search ALPHA_NUMERIC game
  = Some {| group := String c ""; groups := [String c ""] |}.
Proof.
  intros (pre & post & -> & Hpre & Hc).
  induction pre as [|a pre IH]; cbn [append search forall_chars] in *;
    rewrite rmatch_ALPHA_NUMERIC.
  - now rewrite Hc.
  - apply andb_true_iff in Hpre as [Ha Hpre].
    apply negb_true_iff in Ha. rewrite Ha. auto.
Qed.

Lemma search_ALPHA_NUMERIC_none (game : string) :
  no_alnum game -> search ALPHA_NUMERIC game = None.
Proof.
  unfold no_alnum.
  induction game as [|a game IH]; cbn [search forall_chars];
    rewrite rmatch_ALPHA_NUMERIC; [reflexivity|].
  intros H. apply andb_true_iff in H as [Ha H].
  apply negb_true_iff in Ha. rewrite Ha. auto.
Qed.

(** A file name has a first letter or digit, or none at all. *)
Lemma first_alnum_or_none (game : string) :
  (exists c, first_alnum game c) \/ no_alnum game.
Proof.
  unfold no_alnum. induction game as [|a game IH]; [now right|].
  destruct (alnum a) eqn:Ha.
  - left. exists a, "", game. auto.
  - destruct IH as [(c & pre & post & -> & Hpre & Hc)|IH].
    + left. exists c, (String a pre), post. cbn [forall_chars append].
      rewrite Ha, Hpre. auto.
    + right. cbn [forall_chars]. now rewrite Ha, IH.
Qed.

Lemma rmatch_NUMERIC (c : ascii) :
  rmatch NUMERIC (String c "")
  = if digit c then Some {| group := String c ""; groups := [] |} else None.
Proof.
  unfold rmatch, NUMERIC, digit. cbn [match_k star].
  destruct (in_class _ c); reflexivity.
Qed.

(** ** [split] and [strip] *)

Lemma split_nonempty c s : Py.split c s <> [].
Proof.
  destruct s as [|a s]; cbn [Py.split]; [discriminate|].
  destruct (Ascii.eqb a c); [discriminate|].
  destruct (Py.split c s); discriminate.
Qed.

(** The text before the first comma is the first element of the split. *)
Lemma split_first (first rest : string) :
  no_comma first ->
  Py.split comma (first ++ "," ++ rest) = first :: Py.split comma rest.
Proof.
  unfold no_comma. induction first as [|a first IH]; intros H.
  - reflexivity.
  - cbn [forall_chars] in H. apply andb_true_iff in H as [Ha H].
    apply negb_true_iff in Ha. cbn [append Py.split]. rewrite Ha.
    cbn [append] in IH. now rewrite (IH H).
Qed.

Lemma split_no_comma (s : string) : no_comma s -> Py.split comma s = [s].
Proof.
  unfold no_comma. induction s as [|a s IH]; intros H; [reflexivity|].
  cbn [forall_chars] in H. apply andb_true_iff in H as [Ha H].
  apply negb_true_iff in Ha. cbn [Py.split]. now rewrite Ha, (IH H).
Qed.

Lemma split_head_prefix c s x xs :
  Py.split c s = x :: xs -> exists r, s = x ++ r.
Proof.
  revert x xs. induction s as [|a s IH]; cbn [Py.split]; intros x xs.
  - intros [= <- _]. now exists "".
  - destruct (Ascii.eqb a c).
    + intros [= <- _]. now exists (String a s).
    + destruct (Py.split c s) as [|y ys] eqn:E.
      * now destruct (split_nonempty c s).
      * intros [= <- _]. destruct (IH y ys eq_refl) as (r & ->). now exists r.
Qed.

(** Every element of the split is a piece of the string. *)
Lemma split_substr c s t : In t (Py.split c s) -> substr t s.
Proof.
  revert t. induction s as [|a s IH]; cbn [Py.split]; intros t.
  - intros [<-|[]]. apply substr_refl.
  - destruct (Ascii.eqb a c).
    + intros [<-|H]; [now exists "", (String a s)|].
      destruct (IH t H) as (u & v & ->). now exists (String a u), v.
    + destruct (Py.split c s) as [|y ys] eqn:E.
      * now destruct (split_nonempty c s).
      * intros [<-|H].
        -- destruct (split_head_prefix _ _ _ _ E) as (r & ->).
           now exists "", r.
        -- destruct (IH t (or_intror H)) as (u & v & ->).
           now exists (String a u), v.
Qed.

Lemma lstrip_spec (s : string) :
  exists l, s = l ++ Py.lstrip s /\ forall_chars Py.isspace l = true
    /\ forall a u, Py.lstrip s = String a u -> Py.isspace a = false.
Proof.
  induction s as [|a s (l & E & Hl & Hh)]; cbn [Py.lstrip].
  - exists "". repeat split. discriminate.
  - destruct (Py.isspace a) eqn:Ha.
    + exists (String a l). cbn [append forall_chars]. rewrite Ha, Hl, <- E. auto.
    + exists "". repeat split. now intros b u [= <- _].
Qed.

Lemma rstrip_spec (s : string) :
  exists t, s = Py.rstrip s ++ t /\ forall_chars Py.isspace t = true
    /\ forall u a, Py.rstrip s = u ++ String a "" -> Py.isspace a = false.
Proof.
  induction s as [|a s (t & E & Ht & Hl)]; cbn [Py.rstrip].
  - exists "". split; [reflexivity|]. split; [reflexivity|].
    intros [|] ?; discriminate.
  - destruct (Py.rstrip s) as [|b r] eqn:R.
    + destruct (Py.isspace a) eqn:Ha.
      * exists (String a t). cbn [append forall_chars] in *.
        rewrite Ha, Ht, <- E. split; [reflexivity|]. split; [reflexivity|].
        intros [|] ?; discriminate.
      * exists t. cbn [append] in *. subst t.
        split; [reflexivity|]. split; [assumption|].
        intros [|x [|]] y; cbn [append]; intros [= ]; congruence.
    + exists t. cbn [append] in *. rewrite <- E.
      split; [reflexivity|]. split; [assumption|].
      intros [|x u] y; cbn [append]; [discriminate|].
      intros [= _ Hu]. now apply (Hl u y).
Qed.

Lemma strip_trimmed (s : string) : trimmed s (Py.strip s).
Proof.
  unfold Py.strip.
  destruct (lstrip_spec s) as (l & E & Hl & Hh).
  destruct (rstrip_spec (Py.lstrip s)) as (t & E' & Ht & Hlast).
  exists l, t. repeat split; auto.
  - now rewrite <- E'.
  - intros a u R. rewrite R in E'. cbn [append] in E'. now apply (Hh a _ E').
Qed.

Lemma strip_substr (s : string) : substr (Py.strip s) s.
Proof. destruct (strip_trimmed s) as (l & t & E & _). now exists l, t. Qed.

(** ** The region of a file name *)

Lemma forall_chars_substr p (r g : string) :
  substr r g -> forall_chars p g = true -> forall_chars p r = true.
Proof.
  intros (a & b & ->). rewrite !forall_chars_append.
  intros H. apply andb_true_iff in H as [_ H].
  now apply andb_true_iff in H as [H _].
Qed.

Lemma region_chars_no_sep (r : string) :
  forall_chars (in_class region_chars) r = true -> Py.startswith "/" r = false.
Proof.
  destruct r as [|a r]; [reflexivity|]. cbn [forall_chars].
  intros H. apply andb_true_iff in H as [Ha _].
  unfold Py.startswith. cbn [prefix].
  destruct (ascii_dec "/" a) as [<-|]; [|reflexivity].
  vm_compute in Ha. discriminate.
Qed.

Lemma region_of_group_no_sep (g : string) :
  forall_chars (in_class region_chars) g = true ->
  Py.startswith "/" (region_of_group g) = false.
Proof.
  intros Hg. unfold region_of_group.
  destruct (Py.contains "," g); [|now apply region_chars_no_sep].
  destruct (Py.contains "USA" g); [reflexivity|].
  apply region_chars_no_sep.
  apply forall_chars_substr with (g := g); [|assumption].
  apply substr_trans with (b := hd "" (Py.split comma g)); [apply strip_substr|].
  apply split_substr with (c := comma).
  destruct (Py.split comma g) eqn:E; [now destruct (split_nonempty comma g)|].
  now left.
Qed.

Section Region.

Context {fs : Type}.

Lemma resolve_region_found (game g : string) (w : world fs) :
  first_region_group game g ->
  resolve_region game w = Ret (region_of_group g) w.
Proof.
  intros H. apply search_REGION_first in H.
  unfold resolve_region, region_of_group. rewrite H.
  unfold region_match, getitem, bind, ret; cbn.
  change (String "," "") with ",".
  destruct (Py.contains "," g); [|reflexivity].
  destruct (Py.contains "USA" g); [reflexivity|].
  change ","%char with comma.
  destruct (Py.split comma g) eqn:E; [now destruct (split_nonempty comma g)|].
  reflexivity.
Qed.

Lemma resolve_region_default (game : string) (w : world fs) :
  no_region_group game ->
  resolve_region game w = Ret "USA" (add_log (no_region_warning game) w).
Proof.
  intros H. apply search_REGION_none in H.
  unfold resolve_region. now rewrite H.
Qed.

End Region.

Lemma region_group_or_none (game : string) :
  (exists g, first_region_group game g) \/ no_region_group game.
Proof.
  destruct (search REGION game) as [m|] eqn:E.
  - left. destruct (search_REGION_match _ _ E) as (g & _ & H). now exists g.
  - right. now apply search_REGION_none.
Qed.

(** The region of a file name is a value (no exception, no exit) that
    depends on the name alone; resolving it makes no system call. *)
Lemma resolve_region_pure (game : string) :
  exists region,
    Py.startswith "/" region = false
    /\ forall fs (w : world fs), exists w',
         resolve_region game w = Ret region w'
         /\ files w' = files w /\ calls w' = calls w.
Proof.
  destruct (region_group_or_none game) as [(g & H)|H].
  - exists (region_of_group g). split.
    + destruct H as (pre & post & (_ & _ & Hg) & _).
      now apply region_of_group_no_sep.
    + intros fs w. exists w. now rewrite (resolve_region_found _ _ _ H).
  - exists "USA". split; [reflexivity|].
    intros fs w. eexists. now rewrite (resolve_region_default _ _ H).
Qed.

(** ** The bucket of a file name *)

Lemma bucket_first_alnum (game : string) (c : ascii) :
  first_alnum game c ->
  exists m, search ALPHA_NUMERIC game = Some m /\ bucket m = bucket_of_char c.
Proof.
  intros H. eexists. split; [exact (search_ALPHA_NUMERIC_first _ _ H)|].
  unfold bucket, bucket_of_char. cbn [group]. rewrite rmatch_NUMERIC.
  now destruct (digit c).
Qed.

Lemma bucket_of_char_no_sep (c : ascii) :
  alnum c = true -> Py.startswith "/" (bucket_of_char c) = false.
Proof.
  intros H. unfold bucket_of_char. destruct (digit c); [reflexivity|].
  unfold Py.startswith. cbn [prefix].
  destruct (ascii_dec "/" c) as [<-|]; [|reflexivity].
  vm_compute in H. discriminate.
Qed.

(** ** Runs of [move_game] *)

Ltac case_copyfile_eqn H :=
  let E := fresh "Hcopy" in
  match type of H with
  | context [copyfile ?f ?src ?dst] =>
      destruct (copyfile f src dst) as [?|[? ?]] eqn:E
  end.

Ltac case_copyfile :=
  match goal with
  | |- context [copyfile ?f ?src ?dst] =>
      destruct (copyfile f src dst) as [?|[? ?]]
  end.

Section Runs.

Context {fs : Type} {os : OS fs}.
Variable args : Args.

Lemma move_game_skip (game region : string) (w w1 : world fs) :
  resolve_region game w = Ret region w1 -> no_alnum game ->
  move_game args game w = Ret tt (add_log (skip_warning game) w1).
Proof.
  intros HR HA. unfold move_game, bind. rewrite HR.
  now rewrite (search_ALPHA_NUMERIC_none _ HA).
Qed.

(** The system calls of a routed file: the destination directory is
    probed, created when absent, and the file copied into it unless the
    creation failed. *)
Lemma move_game_route (game region : string) (c : ascii) (w w1 : world fs) :
  resolve_region game w = Ret region w1 -> calls w1 = calls w ->
  first_alnum game c ->
  let d := get_destination_dir args region (bucket_of_char c) in
  let cp := CallCopyfile (os_path_join (input_dir args) [game])
                         (os_path_join d [game]) in
  exists delta,
    calls (world_of (move_game args game w)) = (calls w ++ delta)%list
    /\ (delta = [CallExists d; cp]
        \/ delta = [CallExists d; CallMakedirs d; cp]
        \/ delta = [CallExists d; CallMakedirs d]).
Proof.
  intros HR HC HA d cp.
  destruct (bucket_first_alnum _ _ HA) as (m & Hm & Hb).
  unfold move_game, bind at 1. rewrite HR, Hm, Hb. fold d.
  unfold bind, os_path_exists, log_info, logging, create_dir,
    try_except_OSError, os_makedirs, shutil_copyfile, abort, bind,
    log_exception, log_error, logging, sys_exit, ret.
  cbn.
  destruct (path_exists (files w1) d); cbn.
  - exists [CallExists d; cp]. split; [|auto].
    case_copyfile; cbn; rewrite HC, <- app_assoc; reflexivity.
  - destruct (makedirs (files w1) d) as [f|[[| |] f']]; cbn.
    + exists [CallExists d; CallMakedirs d; cp]. split; [|auto].
      case_copyfile; cbn; rewrite HC, <- !app_assoc; reflexivity.
    + exists [CallExists d; CallMakedirs d]. split; [|auto].
      rewrite HC, <- !app_assoc; reflexivity.
    + exists [CallExists d; CallMakedirs d]. split; [|auto].
      rewrite HC, <- !app_assoc; reflexivity.
    + exists [CallExists d; CallMakedirs d]. split; [|auto].
      rewrite HC, <- !app_assoc; reflexivity.
Qed.

End Runs.

Lemma skipn_length_app {A : Type} (l d : list A) :
  skipn (List.length l) (l ++ d)%list = d.
Proof. induction l; [reflexivity | assumption]. Qed.

Lemma calls_during_app {fs A : Type} (c : M fs A) (w : world fs) delta :
  calls (world_of (c w)) = (calls w ++ delta)%list -> calls_during c w = delta.
Proof. intros E. unfold calls_during. rewrite E. apply skipn_length_app. Qed.

Section Steps.

Context {fs : Type} {os : OS fs}.
Variable args : Args.

(** [move_game] on a file with a bucket, case by case: the directory is
    there; it is created; its creation fails with an [OSError]; its
    creation fails otherwise. *)
Lemma move_game_cases (game region : string) (c : ascii) (w w1 : world fs) :
  resolve_region game w = Ret region w1 -> first_alnum game c ->
  let d := get_destination_dir args region (bucket_of_char c) in
  let src := os_path_join (input_dir args) [game] in
  let dst := os_path_join d [game] in
  let copy := log_info ("Copy from " ++ src ++ " to " ++ dst) ;;
              shutil_copyfile src dst in
  let w2 := add_log (LogInfo (d ++ " not found; attempting to create"))
                    (add_call (CallExists d) w1) in
  move_game args game w
  = if path_exists (files w1) d then copy (add_call (CallExists d) w1)
    else
      match makedirs (files w1) d with
      | inl f => copy (set_files f (add_call (CallMakedirs d) w2))
      | inr (OSError msg, f) =>
          Exit 1 (add_log (LogError "Aborted")
                    (add_log (LogException ("Failed to create " ++ d))
                       (add_log (LogError msg)
                          (set_files f (add_call (CallMakedirs d) w2)))))
      | inr (e, f) => Raise e (set_files f (add_call (CallMakedirs d) w2))
      end.
Proof.
  intros HR HA d src dst copy w2.
  destruct (bucket_first_alnum _ _ HA) as (m & Hm & Hb).
  unfold move_game, bind at 1. rewrite HR, Hm, Hb. fold d. fold src. fold dst.
  unfold bind at 1, os_path_exists.
  destruct (path_exists (files w1) d); cbn [negb].
  - reflexivity.
  - unfold bind at 1. unfold bind at 1, log_info at 1, logging at 1.
    unfold create_dir, try_except_OSError, os_makedirs.
    cbn [files add_log add_call]. fold w2.
    destruct (makedirs (files w1) d) as [f|[[|msg|msg] f']]; reflexivity.
Qed.

End Steps.

(** Resolving the region leaves the file system and the history of calls
    as they are. *)
Lemma resolve_region_world {fs : Type} (game region : string) (w w1 : world fs) :
  resolve_region game w = Ret region w1 ->
  files w1 = files w /\ calls w1 = calls w.
Proof.
  intros HR. destruct (resolve_region_pure game) as (r & _ & H).
  destruct (H fs w) as (w' & E & Hf & Hc). rewrite HR in E.
  injection E as _ <-. now split.
Qed.

(** The system calls of [move_game] on a file with a bucket. *)
Lemma move_game_route_calls
  {fs : Type} {os : OS fs} (args : Args) (game region : string) (c : ascii)
  (w w1 : world fs) :
  resolve_region game w = Ret region w1 -> first_alnum game c ->
  let d := get_destination_dir args region (bucket_of_char c) in
  let cp := CallCopyfile (os_path_join (input_dir args) [game])
                         (os_path_join d [game]) in
  calls_during (move_game args game) w
  = if path_exists (files w) d then [CallExists d; cp]
    else match makedirs (files w) d with
         | inl _ => [CallExists d; CallMakedirs d; cp]
         | inr _ => [CallExists d; CallMakedirs d]
         end.
Proof.
  intros HR HA d cp.
  destruct (resolve_region_world _ _ _ _ HR) as [Hf Hc].
  apply calls_during_app.
  rewrite (move_game_cases args _ _ _ _ _ HR HA). cbv zeta. fold d.
  rewrite Hf. unfold bind, log_info, logging, shutil_copyfile.
  destruct (path_exists (files w) d).
  - cbn [files add_log add_call]. case_copyfile;
      cbn [world_of calls add_call add_log set_files];
      now rewrite Hc, <- app_assoc.
  - destruct (makedirs (files w) d) as [f|[[|msg|msg] f']];
      cbn [files add_log add_call set_files]; try case_copyfile;
      cbn [world_of calls add_call add_log set_files];
      now rewrite Hc, <- !app_assoc.
Qed.

(** ** Region resolution *)

(** C1: when the first parenthesized region group of a file name holds a
    comma and [USA] is one of its comma-separated tags (at any place in
    the list, white space around it aside), the resolved region is the
    string [USA]. *)
Theorem region_USA_among_tags :
  forall (fs : Type) (game g : string) (w : world fs),
    first_region_group game g ->
    substr "," g ->
    (exists t, In t (Py.split comma g) /\ Py.strip t = "USA") ->
    resolve_region game w = Ret "USA" w.
Proof.
  intros fs game g w Hg Hcomma (t & Ht & Hs).
  rewrite (resolve_region_found _ _ _ Hg). unfold region_of_group.
  apply contains_substr in Hcomma. rewrite Hcomma.
  assert (HU : substr "USA" g).
  { apply substr_trans with (b := t); [|now apply split_substr with (c := comma)].
    rewrite <- Hs. apply strip_substr. }
  apply contains_substr in HU. now rewrite HU.
Qed.

Lemma region_USA_among_tags_witness :
  first_region_group "Legend of Zelda (Japan, USA).bin" "Japan, USA"
  /\ resolve_region "Legend of Zelda (Japan, USA).bin" (start demo_fs)
     = Ret "USA" (start demo_fs).
Proof.
  assert (H : first_region_group "Legend of Zelda (Japan, USA).bin" "Japan, USA")
    by (apply search_REGION_first; reflexivity).
  split; [exact H|].
  apply (region_USA_among_tags _ _ "Japan, USA").
  - exact H.
  - exists "Japan", " USA". reflexivity.
  - exists " USA". split; [right; left; reflexivity | reflexivity].
Defined.

(** C2: when the first parenthesized region group of a file name holds a
    comma and does not contain [USA], the resolved region is the text
    before the first comma, the first tag, without the white space around
    it. *)
Theorem region_first_tag_without_USA :
  forall (fs : Type) (game g first rest : string) (w : world fs),
    first_region_group game g ->
    g = first ++ "," ++ rest -> no_comma first ->
    ~ substr "USA" g ->
    resolve_region game w = Ret (Py.strip first) w
    /\ trimmed first (Py.strip first).
Proof.
  intros fs game g first rest w Hg -> Hfirst HU.
  split; [|apply strip_trimmed].
  rewrite (resolve_region_found _ _ _ Hg). unfold region_of_group.
  assert (Hc : Py.contains "," (first ++ "," ++ rest) = true)
    by (apply contains_substr; now exists first, rest).
  rewrite Hc.
  destruct (Py.contains "USA" (first ++ "," ++ rest)) eqn:E.
  - apply contains_substr in E. contradiction.
  - now rewrite split_first.
Qed.

Lemma region_first_tag_without_USA_witness :
  resolve_region "Some Game ( Japan , Europe).bin" (start demo_fs)
  = Ret "Japan" (start demo_fs)
  /\ trimmed " Japan " "Japan".
Proof.
  apply (region_first_tag_without_USA _ "Some Game ( Japan , Europe).bin"
           " Japan , Europe" " Japan " " Europe").
  - apply search_REGION_first. reflexivity.
  - reflexivity.
  - reflexivity.
  - intros H. apply contains_substr in H. discriminate H.
Defined.

(** The test for [USA] is on the text of the group, not tag by tag: a
    tag that merely contains [USA] selects it too. *)
Lemma region_USA_inside_a_tag :
  resolve_region "Flight (USAF, Japan).bin" (start demo_fs)
  = Ret "USA" (start demo_fs).
Proof. reflexivity. Qed.

(** ** Paths *)

Lemma join_step_as_dir (path b : string) :
  Py.startswith "/" b = false -> join_step path b = as_dir path ++ b.
Proof.
  intros H. unfold join_step, as_dir. rewrite H.
  destruct (String.eqb path "" || Py.endswith_char sep path)%bool;
    [reflexivity | now rewrite append_assoc].
Qed.

Lemma endswith_char_append c (a b : string) :
  b <> "" -> Py.endswith_char c (a ++ b) = Py.endswith_char c b.
Proof.
  intros Hb. induction a as [|x a IH]; [reflexivity|].
  cbn [append Py.endswith_char]. rewrite IH.
  destruct (a ++ b) eqn:E; [|reflexivity].
  destruct a; [cbn in E; contradiction | discriminate].
Qed.

Lemma as_dir_append (a b : string) :
  b <> "" -> Py.endswith_char sep b = false -> as_dir (a ++ b) = a ++ b ++ "/".
Proof.
  intros Hb He. unfold as_dir. rewrite endswith_char_append, He by assumption.
  replace (String.eqb (a ++ b) "") with false; [cbn; apply append_assoc|].
  symmetry. apply String.eqb_neq. destruct a; [assumption | discriminate].
Qed.

Lemma as_dir_plain (path : string) :
  path <> "" -> Py.endswith_char sep path = false -> as_dir path = path ++ "/".
Proof. intros H E. apply (as_dir_append "" path H E). Qed.

Lemma privileged_eqb (region : string) :
  existsb (String.eqb region) ["Europe"; "Japan"; "USA"] = true
  <-> privileged region.
Proof.
  unfold privileged. cbn [existsb]. rewrite !orb_true_iff, !String.eqb_eq.
  intuition discriminate.
Qed.

Lemma get_destination_dir_privileged (args : Args) (region first_char : string) :
  privileged region -> Py.startswith "/" first_char = false ->
  get_destination_dir args region first_char
  = as_dir (output_dir args) ++ region ++ "/" ++ first_char.
Proof.
  intros Hp Hb. unfold get_destination_dir.
  rewrite (proj2 (privileged_eqb region) Hp).
  unfold os_path_join. cbn [fold_left].
  rewrite (join_step_as_dir _ first_char Hb).
  assert (Hr : Py.startswith "/" region = false)
    by (destruct Hp as [->|[->| ->]]; reflexivity).
  rewrite (join_step_as_dir _ region Hr).
  rewrite as_dir_append, !append_assoc; [reflexivity | |];
    destruct Hp as [->|[->| ->]]; (discriminate || reflexivity).
Qed.

Lemma search_ALPHA_NUMERIC_Some (game : string) m :
  search ALPHA_NUMERIC game = Some m ->
  exists c, first_alnum game c /\ bucket m = bucket_of_char c.
Proof.
  intros H. destruct (first_alnum_or_none game) as [(c & Hc)|Hn].
  - exists c. split; [exact Hc|].
    destruct (bucket_first_alnum _ _ Hc) as (m' & Hm' & Hb). congruence.
  - rewrite (search_ALPHA_NUMERIC_none _ Hn) in H. discriminate H.
Qed.

(** The pairs [move_game] hands to the resolver are path components. *)
Lemma resolver_arguments_are_components
  {fs : Type} (game region : string) (w w' : world fs) m :
  resolve_region game w = Ret region w' ->
  search ALPHA_NUMERIC game = Some m ->
  Py.startswith "/" region = false /\ Py.startswith "/" (bucket m) = false.
Proof.
  intros HR Hm. split.
  - destruct (resolve_region_pure game) as (r & Hr & H).
    destruct (H fs w) as (w1 & E & _). congruence.
  - destruct (search_ALPHA_NUMERIC_Some _ _ Hm) as (c & (pre & post & _ & _ & Hc) & ->).
    now apply bucket_of_char_no_sep.
Qed.

(** C3: the destination resolver sends a region that is exactly [Europe],
    [Japan] or [USA] to [<output_root>/<region>/<bucket>], and every other
    region to [<output_root>/Other/<region>], where the bucket does not
    appear.  The region and the bucket are path components: they do not
    start with a separator. *)
Theorem destination_dir_by_region :
  forall (args : Args) (region first_char : string),
    Py.startswith "/" region = false ->
    Py.startswith "/" first_char = false ->
    (privileged region ->
     get_destination_dir args region first_char
     = as_dir (output_dir args) ++ region ++ "/" ++ first_char)
    /\ (~ privileged region ->
        get_destination_dir args region first_char
        = as_dir (output_dir args) ++ "Other/" ++ region).
Proof.
  intros args region first_char Hr Hb. unfold get_destination_dir.
  destruct (existsb (String.eqb region) ["Europe"; "Japan"; "USA"]) eqn:E.
  - apply privileged_eqb in E. split; [intros _ | contradiction].
    unfold os_path_join. cbn [fold_left].
    rewrite (join_step_as_dir _ first_char Hb), (join_step_as_dir _ region Hr).
    rewrite as_dir_append, !append_assoc; [reflexivity | |];
      destruct E as [->|[->| ->]]; (discriminate || reflexivity).
  - split; [intros H; apply privileged_eqb in H; congruence | intros _].
    unfold os_path_join. cbn [fold_left].
    rewrite (join_step_as_dir _ region Hr), (join_step_as_dir _ "Other" eq_refl).
    rewrite as_dir_append, !append_assoc; [reflexivity | discriminate | reflexivity].
Qed.

Lemma destination_dir_by_region_witness :
  get_destination_dir demo_args "Europe" "#" = "out/Europe/#"
  /\ get_destination_dir demo_args "Hong Kong" "M" = "out/Other/Hong Kong".
Proof.
  split.
  - apply (destination_dir_by_region demo_args "Europe" "#");
      [reflexivity | reflexivity | left; reflexivity].
  - apply (destination_dir_by_region demo_args "Hong Kong" "M");
      [reflexivity | reflexivity |].
    intros [H|[H|H]]; discriminate H.
Defined.

(** ** Files that are skipped *)

Lemma no_alnum_not_BIOS (game : string) :
  no_alnum game -> Py.contains "BIOS" game = false.
Proof.
  intros H. destruct (Py.contains "BIOS" game) eqn:E; [|reflexivity].
  apply contains_substr in E.
  pose proof (forall_chars_substr _ _ _ E H) as F. discriminate F.
Qed.

Section Log.

Context {fs : Type} {os : OS fs}.
Variable args : Args.

(** Whatever happens to a file, the log only grows. *)
Lemma move_game_log (game region : string) (w w1 : world fs) :
  resolve_region game w = Ret region w1 ->
  exists ls, log (world_of (move_game args game w)) = (log w1 ++ ls)%list.
Proof.
  intros HR. unfold move_game, bind at 1. rewrite HR.
  destruct (search ALPHA_NUMERIC game) as [m|].
  - unfold bind, os_path_exists, log_info, logging, create_dir,
      try_except_OSError, os_makedirs, shutil_copyfile, abort, bind,
      log_exception, log_error, logging, sys_exit, ret.
    cbn.
    destruct (path_exists (files w1) _); cbn.
    + case_copyfile; cbn; eexists; reflexivity.
    + destruct (makedirs (files w1) _) as [f|[[| |] f']]; cbn;
        try case_copyfile; cbn; rewrite <- ?app_assoc; eexists; reflexivity.
  - cbn. eexists; reflexivity.
Qed.

End Log.

(** C4: the bucket of a file name is its first character in
    [[A-Za-z0-9]], replaced by [#] when it is a digit and kept as it is
    otherwise.  A name with no such character is skipped: [move_game] logs
    a warning and returns without a system call, so that no destination is
    probed or created and nothing is copied, and the loop goes on with the
    next file. *)
Theorem bucket_or_skip :
  forall (args : Args) (game : string),
    (forall c, first_alnum game c ->
       exists m, search ALPHA_NUMERIC game = Some m
                 /\ bucket m = if digit c then "#" else String c "")
    /\ (no_alnum game ->
        search ALPHA_NUMERIC game = None
        /\ forall fs (os : OS fs) (w : world fs),
           exists w',
             move_game args game w = Ret tt w'
             /\ files w' = files w /\ calls w' = calls w
             /\ In (skip_warning game) (log w')
             /\ forall rest n,
                  for_games args (game :: rest) n w
                  = for_games args rest (n + 1)%Z w').
Proof.
  intros args game. split; [apply bucket_first_alnum|].
  intros HA. split; [now apply search_ALPHA_NUMERIC_none|].
  intros fs os w.
  destruct (resolve_region_pure game) as (region & _ & HR).
  destruct (HR fs w) as (w1 & HR1 & Hf & Hc).
  pose proof (move_game_skip args _ _ _ _ HR1 HA) as HM.
  eexists. split; [exact HM|]. repeat split; try assumption.
  - cbn. apply in_or_app. right. now left.
  - intros rest n. cbn [for_games]. unfold organize_game, bind at 1.
    rewrite (no_alnum_not_BIOS _ HA). unfold bind at 1. now rewrite HM.
Qed.

Lemma bucket_or_skip_witness :
  (exists m, search ALPHA_NUMERIC "007 GoldenEye (Europe).rom" = Some m
             /\ bucket m = "#")
  /\ (exists m, search ALPHA_NUMERIC "-(pac-Man)" = Some m /\ bucket m = "p")
  /\ exists w',
       move_game demo_args "---" (start demo_fs) = Ret tt w'
       /\ calls w' = []
       /\ for_games demo_args ["---"; "Pac-Man Collection (USA).bin"] 0
            (start demo_fs)
          = for_games demo_args ["Pac-Man Collection (USA).bin"] 1 w'.
Proof.
  split; [|split].
  - apply (proj1 (bucket_or_skip demo_args "007 GoldenEye (Europe).rom") "0"%char).
    exists "", "07 GoldenEye (Europe).rom". repeat split.
  - apply (proj1 (bucket_or_skip demo_args "-(pac-Man)") "p"%char).
    exists "-(", "ac-Man)". repeat split.
  - destruct (proj2 (bucket_or_skip demo_args "---") eq_refl) as [_ H].
    destruct (H simple_fs simple_os (start demo_fs))
      as (w' & HM & _ & Hc & _ & Hloop).
    exists w'. split; [exact HM|]. split; [exact Hc|]. apply Hloop.
Defined.

(** ** File names without a region *)

(** C5, as stated, fails: a file name with neither a region group nor a
    letter or digit gets the default region and its warning, and is then
    skipped by the bucket extractor. *)
Lemma no_region_not_always_routed :
  ~ (forall game : string,
       no_region_group game -> ~ skipped demo_args game (start demo_fs)).
Proof.
  intros H. apply (H "---").
  - apply search_REGION_none. reflexivity.
  - eexists. split; [vm_compute; reflexivity|]. split; reflexivity.
Qed.

(** C5, amended: for a file name with no parenthesized region group the
    resolved region is [USA] and a warning is recorded, in the log at the
    end of [move_game] too; the file is not skipped on that account.  When
    the name has a letter or digit it is routed to the [USA] directory of
    its bucket: that directory, [<output_root>/USA/<bucket>], is probed,
    created when absent, and the file copied into it from the input root
    unless the creation failed; these are all the system calls made.  A
    name with no letter or digit is skipped. *)
Theorem no_region_defaults_to_USA :
  forall (args : Args) (fs : Type) (os : OS fs) (game : string) (w : world fs),
    no_region_group game ->
    resolve_region game w = Ret "USA" (add_log (no_region_warning game) w)
    /\ In (no_region_warning game) (log (world_of (move_game args game w)))
    /\ (forall c, first_alnum game c ->
          let d := get_destination_dir args "USA" (bucket_of_char c) in
          let cp := CallCopyfile (os_path_join (input_dir args) [game])
                                 (os_path_join d [game]) in
          d = as_dir (output_dir args) ++ "USA" ++ "/" ++ bucket_of_char c
          /\ ~ skipped args game w
          /\ calls (world_of (move_game args game w))
             = (calls w
                ++ if path_exists (files w) d then [CallExists d; cp]
                   else match makedirs (files w) d with
                        | inl _ => [CallExists d; CallMakedirs d; cp]
                        | inr _ => [CallExists d; CallMakedirs d]
                        end)%list)
    /\ (no_alnum game -> skipped args game w).
Proof.
  intros args fs os game w H.
  pose proof (resolve_region_default game w H) as HR.
  split; [exact HR|]. split; [|split].
  - destruct (move_game_log args _ _ _ _ HR) as (ls & ->).
    cbn. apply in_or_app. left. apply in_or_app. right. now left.
  - intros c Hc d cp.
    assert (Ha : alnum c = true) by (now destruct Hc as (? & ? & _ & _ & ?)).
    split.
    { apply get_destination_dir_privileged;
        [right; right; reflexivity | now apply bucket_of_char_no_sep]. }
    destruct (move_game_route args _ _ c _ _ HR eq_refl Hc) as (delta & E & D).
    pose proof (move_game_route_calls args _ _ _ _ _ HR Hc) as R.
    cbv zeta in R. fold d in R. fold cp in R.
    rewrite (calls_during_app _ _ _ E) in R. subst delta.
    split; [|exact E].
    intros (w' & HM & _ & Hcalls). rewrite HM in E. cbn [world_of] in E.
    rewrite Hcalls in E. rewrite <- (app_nil_r (calls w)) in E at 1.
    apply app_inv_head in E. fold d in D. fold cp in D.
    destruct D as [D|[D|D]]; rewrite D in E; discriminate E.
  - intros Hn. eexists. split; [exact (move_game_skip args _ _ _ _ HR Hn)|].
    split; reflexivity.
Qed.

Lemma no_region_defaults_to_USA_witness :
  resolve_region "Pong.bin" (start demo_fs)
  = Ret "USA" (add_log (no_region_warning "Pong.bin") (start demo_fs))
  /\ In (no_region_warning "Pong.bin")
        (log (world_of (move_game demo_args "Pong.bin" (start demo_fs))))
  /\ ~ skipped demo_args "Pong.bin" (start demo_fs)
  /\ calls (world_of (move_game demo_args "Pong.bin" (start demo_fs)))
     = [CallExists "out/USA/P"; CallMakedirs "out/USA/P";
        CallCopyfile "in/Pong.bin" "out/USA/P/Pong.bin"]
  /\ skipped demo_args "---" (start demo_fs).
Proof.
  assert (H : no_region_group "Pong.bin")
    by (apply search_REGION_none; reflexivity).
  assert (H' : no_region_group "---")
    by (apply search_REGION_none; reflexivity).
  destruct (no_region_defaults_to_USA demo_args simple_fs simple_os
              "Pong.bin" (start demo_fs) H) as (HR & HL & HC & _).
  destruct (no_region_defaults_to_USA demo_args simple_fs simple_os
              "---" (start demo_fs) H') as (_ & _ & _ & HS).
  destruct (HC "P"%char ltac:(exists "", "ong.bin"; repeat split))
    as (_ & HN & HK).
  split; [exact HR|]. split; [exact HL|]. split; [exact HN|].
  split; [exact HK | apply HS; reflexivity].
Defined.

(** ** The system calls of a run *)

Section Emits.

Context {fs : Type} {os : OS fs}.

Lemma emits_nothing {A} (P : os_call -> Prop) (c : M fs A) :
  (forall w, calls (world_of (c w)) = calls w) -> emits P c.
Proof. intros H w. exists []. now rewrite app_nil_r, H. Qed.

Lemma emits_ret {A} P (a : A) : emits P (ret (fs := fs) a).
Proof. now apply emits_nothing. Qed.

Lemma emits_logging P r : emits P (logging (fs := fs) r).
Proof. now apply emits_nothing. Qed.

Lemma emits_bind {A B} P (c : M fs A) (k : A -> M fs B) :
  emits P c -> (forall a, emits P (k a)) -> emits P (bind c k).
Proof.
  intros Hc Hk w. destruct (Hc w) as (d1 & E1 & F1). unfold bind.
  destruct (c w) as [a w1|code w1|e w1]; cbn [world_of] in *;
    try (now exists d1).
  destruct (Hk a w1) as (d2 & E2 & F2).
  exists (d1 ++ d2)%list. split; [|now apply Forall_app].
  now rewrite E2, E1, app_assoc.
Qed.

Lemma emits_weaken {A} (P Q : os_call -> Prop) (c : M fs A) :
  (forall x, P x -> Q x) -> emits P c -> emits Q c.
Proof.
  intros PQ H w. destruct (H w) as (d & E & F).
  exists d. split; [exact E|]. revert F. apply Forall_impl, PQ.
Qed.

Lemma emits_In {A} P (c : M fs A) (w : world fs) (x : os_call) :
  emits P c -> In x (calls_during c w) -> P x.
Proof.
  intros H Hx. destruct (H w) as (d & E & F).
  rewrite (calls_during_app _ _ _ E) in Hx.
  rewrite Forall_forall in F. now apply F.
Qed.

Lemma emits_abort {A} P (message : string) : emits P (abort (A := A) (fs := fs) message).
Proof. now apply emits_nothing. Qed.

Lemma emits_exists (P : os_call -> Prop) (path : string) :
  P (CallExists path) -> emits P (os_path_exists path).
Proof. intros H w. exists [CallExists path]. now repeat constructor. Qed.

Lemma emits_create_dir (P : os_call -> Prop) (dir : string) :
  P (CallMakedirs dir) -> emits P (create_dir dir).
Proof.
  intros H w. exists [CallMakedirs dir]. split; [|now repeat constructor].
  unfold create_dir, try_except_OSError, os_makedirs.
  destruct (makedirs (files w) dir) as [f|[[| |] f']]; reflexivity.
Qed.

Lemma emits_copyfile (P : os_call -> Prop) (src dst : string) :
  P (CallCopyfile src dst) -> emits P (shutil_copyfile src dst).
Proof.
  intros H w. exists [CallCopyfile src dst]. split; [|now repeat constructor].
  unfold shutil_copyfile.
  destruct (copyfile (files w) src dst) as [f|[e f]]; reflexivity.
Qed.

Lemma emits_resolve_region P (game : string) : emits P (resolve_region (fs := fs) game).
Proof.
  apply emits_nothing. intros w.
  destruct (resolve_region_pure game) as (region & _ & H).
  destruct (H fs w) as (w' & -> & _ & E). exact E.
Qed.

Variable args : Args.

(** The copies of [move_game] read from the input root joined with the
    bare file name. *)
Lemma emits_move_game (game : string) :
  emits (fun c => forall src dst, c = CallCopyfile src dst ->
                    src = os_path_join (input_dir args) [game])
        (move_game args game).
Proof.
  unfold move_game. apply emits_bind; [apply emits_resolve_region|].
  intros region. destruct (search ALPHA_NUMERIC game) as [m|];
    [|apply emits_logging].
  apply emits_bind; [apply emits_exists; discriminate|]. intros dir_exists.
  apply emits_bind.
  - destruct (negb dir_exists); [|apply emits_ret].
    apply emits_bind; [apply emits_logging|]. intros _.
    apply emits_create_dir. discriminate.
  - intros _. apply emits_bind; [apply emits_logging|]. intros _.
    apply emits_copyfile. now intros src dst [= <- _].
Qed.

Lemma copies_from_incl (l l' : list string) (c : os_call) :
  incl l l' -> copies_from args l c -> copies_from args l' c.
Proof.
  intros Hi H src dst E. destruct (H src dst E) as (game & Hg & Hb & Hs).
  exists game. auto.
Qed.

Lemma emits_for_games (games : list string) :
  forall n, emits (copies_from args games) (for_games args games n).
Proof.
  induction games as [|game rest IH]; intros n; cbn [for_games].
  - apply emits_ret.
  - apply emits_bind.
    + unfold organize_game. destruct (Py.contains "BIOS" game) eqn:E.
      * apply emits_bind; [apply emits_logging | intros _; apply emits_ret].
      * apply emits_bind; [|intros _; apply emits_ret].
        apply emits_weaken with (2 := emits_move_game game).
        intros c H src dst Hc. exists game. repeat split.
        -- now left.
        -- unfold not_BIOS. now rewrite E.
        -- now apply (H src dst).
    + intros n'. apply emits_weaken with (2 := IH n').
      intros c. apply copies_from_incl. now apply incl_tl.
Qed.

Lemma emits_for_walk (walk : list walk_entry) :
  forall n, emits (copies_from args (flat_map snd walk)) (for_walk args walk n).
Proof.
  induction walk as [|[[dirpath dirnames] games] rest IH]; intros n;
    cbn [for_walk flat_map snd].
  - apply emits_ret.
  - apply emits_bind.
    + apply emits_weaken with (2 := emits_for_games games n).
      intros c. apply copies_from_incl. now apply incl_appl.
    + intros n'. apply emits_weaken with (2 := IH n').
      intros c. apply copies_from_incl. now apply incl_appr.
Qed.

(** In a whole run, every copy reads from the input root joined with the
    bare name of a file of the walk whose name does not contain [BIOS]. *)
Lemma emits_organize (walk : list walk_entry) :
  emits (copies_from args (flat_map snd walk)) (organize args walk).
Proof.
  unfold organize.
  apply emits_bind; [apply emits_exists; discriminate|]. intros input_exists.
  apply emits_bind.
  { destruct (negb input_exists); [apply emits_abort | apply emits_ret]. }
  intros _.
  apply emits_bind; [apply emits_exists; discriminate|]. intros output_exists.
  apply emits_bind; [|intros _; apply emits_for_walk].
  destruct (negb output_exists); [|apply emits_ret].
  apply emits_bind; [apply emits_logging|]. intros _.
  apply emits_create_dir. discriminate.
Qed.

End Emits.

(** ** BIOS files *)

Lemma join_last_inj (path a b : string) :
  Py.startswith "/" a = false -> Py.startswith "/" b = false ->
  os_path_join path [a] = os_path_join path [b] -> a = b.
Proof.
  intros Ha Hb. unfold os_path_join. cbn [fold_left].
  rewrite (join_step_as_dir _ _ Ha), (join_step_as_dir _ _ Hb).
  apply append_inv_head.
Qed.

(** C6: a file whose name contains [BIOS] is passed over by the loop of
    [organize]: one information line is logged, [move_game] is not called
    on it (no region or bucket is extracted, no destination computed, no
    system call made, nothing copied), and the loop goes on with the next
    file, the count unchanged.  In a whole run of [organize] over file
    names as a directory listing gives them (none starts with a
    separator), no copy reads the input root joined with that name. *)
Theorem BIOS_file_passed_over :
  forall (args : Args) (fs : Type) (os : OS fs) (game : string),
    substr "BIOS" game ->
    (forall (game_count : Z) (w : world fs),
        let w' := add_log (LogInfo ("Skipping BIOS file: " ++ game)) w in
        organize_game args game game_count w = Ret game_count w'
        /\ files w' = files w /\ calls w' = calls w
        /\ forall rest,
             for_games args (game :: rest) game_count w
             = for_games args rest game_count w')
    /\ (forall (walk : list walk_entry) (w : world fs) (dst : string),
          Forall (fun n => Py.startswith "/" n = false) (flat_map snd walk) ->
          In game (flat_map snd walk) ->
          ~ In (CallCopyfile (os_path_join (input_dir args) [game]) dst)
               (calls_during (organize args walk) w)).
Proof.
  intros args fs os game H. split.
  - intros n w w'. apply contains_substr in H.
    assert (E : organize_game args game n w = Ret n w')
      by (unfold organize_game; now rewrite H).
    repeat split; [exact E|].
    intros rest. cbn [for_games]. unfold bind at 1. now rewrite E.
  - intros walk w dst Hplain Hin Hc.
    apply (emits_In _ _ _ _ (emits_organize args walk)) in Hc.
    destruct (Hc _ _ eq_refl) as (game' & Hin' & Hb & E).
    rewrite Forall_forall in Hplain.
    apply join_last_inj in E; [|now apply Hplain..]. subst game'.
    apply contains_substr in H. unfold not_BIOS in Hb.
    rewrite H in Hb. discriminate Hb.
Qed.

Lemma BIOS_file_passed_over_witness :
  organize_game demo_args "BIOS_SystemFile.bin" 0 (start demo_fs)
  = Ret 0%Z (add_log (LogInfo "Skipping BIOS file: BIOS_SystemFile.bin")
                     (start demo_fs))
  /\ ~ In (CallCopyfile "in/BIOS_SystemFile.bin" "out/USA/B/BIOS_SystemFile.bin")
          (calls_during
             (organize demo_args
                [("in", [], ["Pac-Man Collection (USA).bin";
                             "BIOS_SystemFile.bin"])])
             (start demo_fs)).
Proof.
  assert (H : substr "BIOS" "BIOS_SystemFile.bin")
    by (exists "", "_SystemFile.bin"; reflexivity).
  destruct (BIOS_file_passed_over demo_args simple_fs simple_os
              "BIOS_SystemFile.bin" H) as [H1 H2].
  split.
  - apply (H1 0%Z (start demo_fs)).
  - apply (H2 [("in", [], ["Pac-Man Collection (USA).bin";
                           "BIOS_SystemFile.bin"])]
              (start demo_fs) "out/USA/B/BIOS_SystemFile.bin").
    + repeat constructor.
    + right. left. reflexivity.
Defined.

(** ** An empty region *)

(** C10: there is a file name, [( ,).bin], whose resolved region is the
    empty string; its destination directory is the output root joined
    with [Other] and the empty string, and that is the directory
    [move_game] probes. *)
Theorem empty_region_exists :
  exists game : string,
    (forall fs (w : world fs), resolve_region game w = Ret "" w)
    /\ (forall (args : Args) (first_char : string),
          get_destination_dir args "" first_char
          = os_path_join (output_dir args) ["Other"; ""])
    /\ forall (args : Args) fs (os : OS fs) (w : world fs),
       exists rest,
         calls (world_of (move_game args game w))
         = (calls w
            ++ CallExists (os_path_join (output_dir args) ["Other"; ""])
            :: rest)%list.
Proof.
  exists "( ,).bin".
  assert (HR : forall fs (w : world fs), resolve_region "( ,).bin" w = Ret "" w)
    by reflexivity.
  split; [exact HR|]. split; [reflexivity|].
  intros args fs os w.
  assert (Hc : first_alnum "( ,).bin" "b") by (exists "( ,).", "in"; repeat split).
  destruct (move_game_route args _ _ _ _ _ (HR fs w) eq_refl Hc)
    as (delta & E & D).
  rewrite E. destruct D as [->|[->| ->]]; eexists; reflexivity.
Qed.

(** ** Two runs on one file name *)

(** The calls [move_game] makes for a file name: none, or calls on one
    directory, a function of the output root and the name, and one copy
    from the input root joined with the name into that directory. *)
Lemma move_game_calls (out game : string) :
  exists d : string,
    forall (args : Args) fs (os : OS fs) (w : world fs) (c : os_call),
      output_dir args = out ->
      In c (calls_during (move_game args game) w) ->
      c = CallExists d \/ c = CallMakedirs d
      \/ c = CallCopyfile (os_path_join (input_dir args) [game])
                          (os_path_join d [game]).
Proof.
  destruct (resolve_region_pure game) as (region & _ & HR).
  destruct (first_alnum_or_none game) as [(a & Ha)|Hn].
  - exists (os_path_join out
              (if existsb (String.eqb region) ["Europe"; "Japan"; "USA"]
               then [region; bucket_of_char a] else ["Other"; region])).
    intros args fs os w c <- Hc.
    destruct (HR fs w) as (w1 & HR1 & _ & Hcalls).
    destruct (move_game_route args _ _ _ _ _ HR1 Hcalls Ha) as (delta & E & D).
    rewrite (calls_during_app _ _ _ E) in Hc.
    unfold get_destination_dir in D.
    destruct (existsb (String.eqb region) ["Europe"; "Japan"; "USA"]);
      destruct D as [->|[->| ->]]; cbn [In] in Hc; intuition auto.
  - exists "". intros args fs os w c _ Hc.
    destruct (HR fs w) as (w1 & HR1 & _ & Hcalls).
    pose proof (move_game_skip args _ _ _ _ HR1 Hn) as HM.
    rewrite (calls_during_app _ _ []) in Hc; [destruct Hc|].
    rewrite HM, app_nil_r. exact Hcalls.
Qed.



(** ** Files in subdirectories *)

Lemma wf_tree_subdir filenames subdirs d :
  wf_tree (Dir filenames subdirs) -> In d subdirs ->
  plain_name (fst d) /\ wf_tree (snd d).
Proof.
  intros [_ H]. induction subdirs as [|x l IH]; intros Hin; [destruct Hin|].
  destruct H as (Hn & Ht & Hl). destruct Hin as [->|Hin]; auto.
Qed.

Lemma plain_name_no_sep (n : string) :
  plain_name n -> Py.startswith "/" n = false /\ Py.endswith_char sep n = false.
Proof.
  intros [Hne H]. split.
  - destruct n as [|a n]; [reflexivity|]. cbn [forall_chars] in H.
    apply andb_true_iff in H as [Ha _]. apply negb_true_iff in Ha.
    unfold Py.startswith. cbn [prefix].
    destruct (ascii_dec "/" a) as [<-|]; [discriminate Ha | reflexivity].
  - clear Hne. induction n as [|a n IH]; [reflexivity|].
    cbn [forall_chars] in H. apply andb_true_iff in H as [Ha H].
    apply negb_true_iff in Ha. cbn [Py.endswith_char].
    destruct n; [exact Ha | exact (IH H)].
Qed.

(** Where the walk goes: every directory path it yields is the top, or
    the top followed by a relative path; the file names it yields are
    plain. *)
Lemma os_walk_entries (t : dirtree) :
  forall (top dirpath : string) dirnames games,
    wf_tree t -> In (dirpath, dirnames, games) (os_walk top t) ->
    Forall plain_name games
    /\ (dirpath = top
        \/ exists rel, rel <> "" /\ Py.endswith_char sep rel = false
                       /\ dirpath = as_dir top ++ rel).
Proof.
  induction t as [filenames subdirs IH] using dirtree_subdirs_ind.
  intros top dirpath dirnames games Hwf Hin. cbn [os_walk] in Hin.
  destruct Hin as [E|Hin].
  - injection E as <- _ <-. split; [apply Hwf | now left].
  - apply in_flat_map in Hin as (d & Hd & Hin).
    destruct (wf_tree_subdir _ _ _ Hwf Hd) as [Hn Ht].
    rewrite Forall_forall in IH.
    destruct (IH d Hd _ _ _ _ Ht Hin) as [Hg Hp]. split; [exact Hg|].
    destruct (plain_name_no_sep _ Hn) as [Hs He].
    unfold os_path_join in Hp. cbn [fold_left] in Hp.
    rewrite (join_step_as_dir _ _ Hs) in Hp. right.
    destruct Hp as [->|(rel & Hrel & Hrele & ->)].
    + exists (fst d). repeat split; [apply Hn | assumption].
    + exists (fst d ++ "/" ++ rel). repeat split.
      * destruct (fst d); [now destruct Hn | discriminate].
      * rewrite endswith_char_append; [|discriminate].
        now rewrite (endswith_char_append sep "/" rel Hrel).
      * rewrite (as_dir_append _ _ (proj1 Hn) He). now rewrite !append_assoc.
Qed.

(** Below the top, the walk yields directory paths that extend the top
    by a relative path. *)
Lemma os_walk_subdirectory (top : string) filenames subdirs :
  forall (dirpath : string) dirnames games,
    wf_tree (Dir filenames subdirs) ->
    In (dirpath, dirnames, games) (tl (os_walk top (Dir filenames subdirs))) ->
    Forall plain_name games
    /\ exists rel, rel <> "" /\ Py.endswith_char sep rel = false
                   /\ dirpath = as_dir top ++ rel.
Proof.
  intros dirpath dirnames games Hwf Hin. cbn [os_walk tl] in Hin.
  apply in_flat_map in Hin as (d & Hd & Hin).
  destruct (wf_tree_subdir _ _ _ Hwf Hd) as [Hn Ht].
  destruct (os_walk_entries _ _ _ _ _ Ht Hin) as [Hg Hp]. split; [exact Hg|].
  destruct (plain_name_no_sep _ Hn) as [Hs He].
  unfold os_path_join in Hp. cbn [fold_left] in Hp.
  rewrite (join_step_as_dir _ _ Hs) in Hp.
  destruct Hp as [->|(rel & Hrel & Hrele & ->)].
  - exists (fst d). repeat split; [apply Hn | assumption].
  - exists (fst d ++ "/" ++ rel). repeat split.
    + destruct (fst d); [now destruct Hn | discriminate].
    + rewrite endswith_char_append; [|discriminate].
      now rewrite (endswith_char_append sep "/" rel Hrel).
    + rewrite (as_dir_append _ _ (proj1 Hn) He). now rewrite !append_assoc.
Qed.



(** In a whole run over the walk of a tree, every copy reads from the
    input root joined with a bare file name, wherever the walk listed the
    file. *)
Lemma organize_sources_under_root
  {fs : Type} {os : OS fs} (args : Args) (t : dirtree) (w : world fs)
  (src dst : string) :
  In (CallCopyfile src dst)
     (calls_during (organize args (os_walk (input_dir args) t)) w) ->
  exists dirpath dirnames games game,
    In (dirpath, dirnames, games) (os_walk (input_dir args) t)
    /\ In game games
    /\ src = os_path_join (input_dir args) [game].
Proof.
  intros H. apply (emits_In _ _ _ _ (emits_organize args _)) in H.
  destruct (H _ _ eq_refl) as (game & Hin & _ & E).
  apply in_flat_map in Hin as ([[dirpath dirnames] games] & He & Hg).
  now exists dirpath, dirnames, games, game.
Qed.

(** ** The count of processed games *)

Section Count.

Context {fs : Type} {os : OS fs}.
Variable args : Args.

(** The loop counts every file it hands to [move_game], whatever
    [move_game] does with it: a run that ends normally returns the number
    of file names without [BIOS]. *)
Lemma for_games_count (games : list string) :
  forall (n m : Z) (w w' : world fs),
    for_games args games n w = Ret m w' ->
    m = (n + Z.of_nat (List.length (filter not_BIOS games)))%Z.
Proof.
  induction games as [|game rest IH]; intros n m w w'; cbn [for_games filter].
  - intros [= <- _]. cbn. lia.
  - unfold bind at 1, organize_game.
    destruct (Py.contains "BIOS" game) eqn:E.
    + replace (not_BIOS game) with false by (unfold not_BIOS; now rewrite E).
      unfold bind at 1, log_info, logging, ret. intros H.
      apply IH in H. exact H.
    + replace (not_BIOS game) with true by (unfold not_BIOS; now rewrite E).
      unfold bind at 1.
      destruct (move_game args game w) as [u w1|code w1|e w1];
        try discriminate.
      unfold ret. intros H. apply IH in H. cbn [List.length]. lia.
Qed.

Lemma for_walk_count (walk : list walk_entry) :
  forall (n m : Z) (w w' : world fs),
    for_walk args walk n w = Ret m w' ->
    m = (n + Z.of_nat (List.length
                         (filter not_BIOS (flat_map snd walk))))%Z.
Proof.
  induction walk as [|[[dirpath dirnames] games] rest IH];
    intros n m w w'; cbn [for_walk flat_map snd].
  - intros [= <- _]. cbn. lia.
  - unfold bind at 1.
    destruct (for_games args games n w) as [k w1|code w1|e w1] eqn:E;
      try discriminate.
    intros H. apply IH in H. apply for_games_count in E.
    rewrite filter_app, length_app. lia.
Qed.

Lemma organize_count (walk : list walk_entry) (m : Z) (w w' : world fs) :
  organize args walk w = Ret m w' ->
  m = Z.of_nat (List.length (filter not_BIOS (flat_map snd walk))).
Proof.
  unfold organize. unfold bind at 1, os_path_exists.
  destruct (path_exists (files w) (input_dir args)); cbn [negb].
  - unfold bind at 1, ret. unfold bind at 1.
    destruct (path_exists _ (output_dir args)); cbn [negb].
    + unfold bind at 1, ret. intros H. now apply for_walk_count in H.
    + unfold bind at 1. unfold bind at 1, log_info, logging.
      destruct (create_dir (output_dir args) _) as [u w1|code w1|e w1];
        try discriminate.
      intros H. now apply for_walk_count in H.
  - unfold bind at 1, abort, bind, log_exception, log_error, logging, sys_exit.
    discriminate.
Qed.

End Count.

(** C8 does not hold of the script: a file skipped for want of a letter or
    digit is counted.  On an input directory holding the one file [---],
    nothing is copied, the skip is logged, and the count returned and
    reported is 1. *)
Theorem skipped_file_is_counted :
  exists w w' : world simple_fs,
    organize demo_args [("in", [], ["---"])] (start demo_fs) = Ret 1%Z w
    /\ main demo_args [("in", [], ["---"])] (start demo_fs) = Ret tt w'
    /\ In (skip_warning "---") (log w')
    /\ In (LogInfo "Processed 1 games") (log w')
    /\ calls w' = [CallExists "in"; CallExists "out"; CallMakedirs "out"].
Proof.
  eexists. eexists.
  split; [vm_compute; reflexivity|].
  split; [vm_compute; reflexivity|].
  cbn. intuition auto.
Qed.


(** * Further properties of the script *)

(** ** Fatal conditions *)

(** X1: when the input directory does not exist, the run exits with code
    1 whatever the walk would yield.  The only system call is the probe of
    the input directory: the output directory is neither probed nor
    created, the file system is untouched, and the log receives [Start],
    the arguments and the two records of [abort]; [Finish] is not logged. *)
Theorem main_without_input_dir :
  forall (args : Args) (fs : Type) (os : OS fs)
         (walk : list walk_entry) (w : world fs),
    path_exists (files w) (input_dir args) = false ->
    exists w',
      main args walk w = Exit 1 w'
      /\ files w' = files w
      /\ calls w' = (calls w ++ [CallExists (input_dir args)])%list
      /\ log w'
         = (log w ++ LogInfo "Start" :: args_records args
            ++ abort_records ("Input directory: '" ++ input_dir args
                              ++ "' doesn't exist!"))%list.
Proof.
  intros args fs os walk w H. eexists.
  unfold main, organize, log_args, bind, log_info, logging, os_path_exists,
    abort, bind, log_exception, log_error, logging, sys_exit.
  cbn [files add_log add_call]. rewrite H. cbn [negb].
  split; [reflexivity|]. cbn [files log calls add_log add_call].
  repeat split. rewrite <- !app_assoc. reflexivity.
Qed.

Lemma main_without_input_dir_witness :
  exists w',
    main demo_args [("in", [], ["Pac-Man Collection (USA).bin"])] (start empty_fs)
    = Exit 1 w'
    /\ files w' = empty_fs
    /\ calls w' = [CallExists "in"].
Proof.
  destruct (main_without_input_dir demo_args simple_fs simple_os
              [("in", [], ["Pac-Man Collection (USA).bin"])] (start empty_fs)
              eq_refl) as (w' & E & Hf & Hc & _).
  exists w'. repeat split; assumption.
Defined.

(** X2: when the output directory is absent and [os.makedirs] fails on
    it with an [OSError], the run exits with code 1 before the walk is
    looked at: three system calls (two probes and the failed creation), no
    copy, and the error, [Failed to create] and [Aborted] in the log.  The
    file system is the one the failed creation left. *)
Theorem organize_output_dir_not_created :
  forall (args : Args) (fs : Type) (os : OS fs)
         (walk : list walk_entry) (w : world fs) (msg : string) (f' : fs),
    path_exists (files w) (input_dir args) = true ->
    path_exists (files w) (output_dir args) = false ->
    makedirs (files w) (output_dir args) = inr (OSError msg, f') ->
    exists w',
      organize args walk w = Exit 1 w'
      /\ files w' = f'
      /\ calls w'
         = (calls w ++ [CallExists (input_dir args);
                        CallExists (output_dir args);
                        CallMakedirs (output_dir args)])%list
      /\ log w'
         = (log w ++ LogInfo (output_dir args ++ " not found; attempting to create")
            :: LogError msg
            :: abort_records ("Failed to create " ++ output_dir args))%list.
Proof.
  intros args fs os walk w msg f' Hin Hout Hmk. eexists.
  unfold organize, bind, os_path_exists, log_info, logging, create_dir,
    try_except_OSError, os_makedirs, abort, bind, log_exception, log_error,
    logging, sys_exit, ret.
  cbn [files add_log add_call]. rewrite Hin. cbn [negb files add_call].
  rewrite Hout. cbn [negb files add_log add_call]. rewrite Hmk.
  split; [reflexivity|]. cbn [files log calls add_log add_call set_files].
  repeat split; rewrite <- !app_assoc; reflexivity.
Qed.

Lemma organize_output_dir_not_created_witness :
  exists w',
    organize deep_args [("in", [], ["Pac-Man Collection (USA).bin"])]
             (start locked_deep_fs)
    = Exit 1 w'
    /\ files w' = SimpleFs ["store"; "in"] ["store/out"]
    /\ calls w'
       = [CallExists "in"; CallExists "store/out"; CallMakedirs "store/out"].
Proof.
  destruct (organize_output_dir_not_created deep_args simple_fs simple_os
              [("in", [], ["Pac-Man Collection (USA).bin"])]
              (start locked_deep_fs)
              "[Errno 13] Permission denied: 'store/out'"
              (SimpleFs ["store"; "in"] ["store/out"])
              eq_refl eq_refl eq_refl)
    as (w' & E & Hf & Hc & _).
  exists w'. repeat split; assumption.
Defined.

(** X3: when the destination directory of a file is absent and
    [os.makedirs] fails on it with an [OSError], [move_game] exits with
    code 1: the file is not copied, the file system is the one the failed
    creation left, and the loop of [organize] ends there, the files that
    follow unprocessed. *)
Theorem destination_dir_not_created :
  forall (args : Args) (fs : Type) (os : OS fs) (game region : string)
         (c : ascii) (w w1 : world fs) (msg : string) (f' : fs),
    resolve_region game w = Ret region w1 ->
    first_alnum game c ->
    let d := get_destination_dir args region (bucket_of_char c) in
    path_exists (files w) d = false ->
    makedirs (files w) d = inr (OSError msg, f') ->
    exists w',
      move_game args game w = Exit 1 w'
      /\ files w' = f'
      /\ calls w' = (calls w ++ [CallExists d; CallMakedirs d])%list
      /\ aborted w'
      /\ (Py.contains "BIOS" game = false ->
          forall rest n, for_games args (game :: rest) n w = Exit 1 w').
Proof.
  intros args fs os game region c w w1 msg f' HR HA d He Hm.
  destruct (resolve_region_world _ _ _ _ HR) as [Hf Hc].
  pose proof (move_game_cases args _ _ _ _ _ HR HA) as E. cbv zeta in E.
  fold d in E. rewrite Hf, He, Hm in E.
  eexists. split; [exact E|]. cbn [files calls log add_log add_call set_files].
  split; [reflexivity|]. split; [now rewrite Hc, <- app_assoc|]. split.
  - unfold aborted, abort_records. cbn [log add_log add_call set_files].
    eexists. exists ("Failed to create " ++ d).
    rewrite <- app_assoc. reflexivity.
  - intros HB rest n. cbn [for_games]. unfold bind at 1, organize_game.
    rewrite HB. unfold bind at 1. now rewrite E.
Qed.

Lemma destination_dir_not_created_witness :
  exists w',
    move_game demo_args "Pac-Man Collection (USA).bin" (start locked_fs)
    = Exit 1 w'
    /\ files w'
       = SimpleFs ["out/USA"; "in"; "out"; "in/Pac-Man Collection (USA).bin"]
                  ["out/USA/P"]
    /\ calls w' = [CallExists "out/USA/P"; CallMakedirs "out/USA/P"]
    /\ for_games demo_args ["Pac-Man Collection (USA).bin"; "Pong.bin"] 0
         (start locked_fs)
       = Exit 1 w'.
Proof.
  assert (HR : resolve_region "Pac-Man Collection (USA).bin" (start locked_fs)
               = Ret "USA" (start locked_fs)) by reflexivity.
  assert (HA : first_alnum "Pac-Man Collection (USA).bin" "P")
    by (exists "", "ac-Man Collection (USA).bin"; repeat split).
  destruct (destination_dir_not_created demo_args simple_fs simple_os
              _ _ _ _ _ "[Errno 13] Permission denied: 'out/USA/P'"
              (SimpleFs ["out/USA"; "in"; "out";
                         "in/Pac-Man Collection (USA).bin"]
                        ["out/USA/P"])
              HR HA eq_refl eq_refl)
    as (w' & E & Hf & Hc & _ & Hloop).
  exists w'. split; [exact E|]. split; [exact Hf|]. split; [exact Hc|].
  now apply Hloop.
Defined.



(** X5: [move_game] creates a directory only when it is absent: a call
    of [os.makedirs] is on a path that did not exist when the file was
    taken up, it comes right after the probe of that path, and there is no
    second one. *)
Theorem makedirs_only_when_absent :
  forall (args : Args) (fs : Type) (os : OS fs) (game : string)
         (w : world fs) (d : string),
    In (CallMakedirs d) (calls_during (move_game args game) w) ->
    path_exists (files w) d = false
    /\ exists rest,
         calls_during (move_game args game) w
         = CallExists d :: CallMakedirs d :: rest
         /\ forall p, ~ In (CallMakedirs p) rest.
Proof.
  intros args fs os game w d Hin.
  destruct (resolve_region_pure game) as (region & _ & HR).
  destruct (HR fs w) as (w1 & HR1 & Hf & Hc).
  destruct (first_alnum_or_none game) as [(c & HA)|Hn].
  - rewrite (move_game_route_calls args _ _ _ _ _ HR1 HA) in *.
    cbv zeta in *.
    set (d' := get_destination_dir args region (bucket_of_char c)) in *.
    destruct (path_exists (files w) d') eqn:He.
    + exfalso. destruct Hin as [Hin|[Hin|[]]]; discriminate Hin.
    + assert (d' = d) as <-.
      { destruct (makedirs (files w) d'); cbn [In] in Hin;
          intuition congruence. }
      split; [exact He|].
      destruct (makedirs (files w) d'); eexists; (split; [reflexivity|]).
      * intros q [Hq|[]]. discriminate Hq.
      * intros q [].
  - exfalso. rewrite (calls_during_app _ _ []) in Hin; [destruct Hin|].
    rewrite (move_game_skip args _ _ _ _ HR1 Hn), app_nil_r. exact Hc.
Qed.

Lemma makedirs_only_when_absent_witness :
  path_exists demo_fs "out/USA/P" = false
  /\ exists rest,
       calls_during (move_game demo_args "Pac-Man Collection (USA).bin")
                    (start demo_fs)
       = CallExists "out/USA/P" :: CallMakedirs "out/USA/P" :: rest.
Proof.
  destruct (makedirs_only_when_absent demo_args simple_fs simple_os
              "Pac-Man Collection (USA).bin" (start demo_fs) "out/USA/P")
    as (H & rest & E & _).
  - vm_compute. auto.
  - split; [exact H|]. exists rest. exact E.
Defined.

(** ** How a run can end *)

Section Sound.

Context {fs : Type} {os : OS fs}.

Lemma sound_ret {A} (a : A) : sound (ret (fs := fs) a).
Proof. intros w. exact I. Qed.

Lemma sound_logging r : sound (logging (fs := fs) r).
Proof. intros w. exact I. Qed.

Lemma sound_bind {A B} (c : M fs A) (k : A -> M fs B) :
  sound c -> (forall a, sound (k a)) -> sound (bind c k).
Proof.
  intros Hc Hk w. specialize (Hc w). unfold bind.
  destruct (c w) as [a w1|code w1|e w1]; [apply Hk | exact Hc | exact Hc].
Qed.

Lemma sound_abort {A} (message : string) :
  sound (abort (A := A) (fs := fs) message).
Proof.
  intros w. split; [reflexivity|].
  exists (log w), message. cbn. now rewrite <- app_assoc.
Qed.

Lemma sound_exists (path : string) : sound (os_path_exists path).
Proof. intros w. exact I. Qed.

Lemma sound_create_dir (dir : string) : sound (create_dir dir).
Proof.
  intros w. unfold create_dir, try_except_OSError, os_makedirs.
  destruct (makedirs (files w) dir) as [f|[[|msg|msg] f']] eqn:E.
  - exact I.
  - left. exists (files w), dir, f'. split; [exact E | discriminate].
  - apply (sound_bind (log_error msg)); [apply sound_logging|].
    intros _. apply sound_abort.
  - left. exists (files w), dir, f'. split; [exact E | discriminate].
Qed.

Lemma sound_copyfile (src dst : string) : sound (shutil_copyfile src dst).
Proof.
  intros w. unfold shutil_copyfile.
  destruct (copyfile (files w) src dst) as [f|[e f']] eqn:E; [exact I|].
  right. now exists (files w), src, dst, f'.
Qed.

(** The two subscripts of [move_game], [groups()[0]] and [split(',')[0]],
    never fail. *)
Lemma sound_resolve_region (game : string) : sound (resolve_region (fs := fs) game).
Proof.
  intros w. destruct (resolve_region_pure game) as (region & _ & H).
  destruct (H fs w) as (w' & -> & _). exact I.
Qed.

Variable args : Args.

Lemma sound_move_game (game : string) : sound (move_game args game).
Proof.
  unfold move_game. apply sound_bind; [apply sound_resolve_region|].
  intros region. destruct (search ALPHA_NUMERIC game) as [m|];
    [|apply sound_logging].
  apply sound_bind; [apply sound_exists|]. intros dir_exists.
  apply sound_bind.
  - destruct (negb dir_exists); [|apply sound_ret].
    apply sound_bind; [apply sound_logging|]. intros _. apply sound_create_dir.
  - intros _. apply sound_bind; [apply sound_logging|]. intros _.
    apply sound_copyfile.
Qed.

Lemma sound_for_games (games : list string) :
  forall n, sound (for_games args games n).
Proof.
  induction games as [|game rest IH]; intros n; cbn [for_games].
  - apply sound_ret.
  - apply sound_bind; [|exact IH].
    unfold organize_game. destruct (Py.contains "BIOS" game).
    + apply sound_bind; [apply sound_logging | intros _; apply sound_ret].
    + apply sound_bind; [apply sound_move_game | intros _; apply sound_ret].
Qed.

Lemma sound_for_walk (walk : list walk_entry) :
  forall n, sound (for_walk args walk n).
Proof.
  induction walk as [|[[dirpath dirnames] games] rest IH]; intros n;
    cbn [for_walk].
  - apply sound_ret.
  - apply sound_bind; [apply sound_for_games | exact IH].
Qed.

Lemma sound_organize (walk : list walk_entry) : sound (organize args walk).
Proof.
  unfold organize.
  apply sound_bind; [apply sound_exists|]. intros input_exists.
  apply sound_bind.
  { destruct (negb input_exists); [apply sound_abort | apply sound_ret]. }
  intros _. apply sound_bind; [apply sound_exists|]. intros output_exists.
  apply sound_bind; [|intros _; apply sound_for_walk].
  destruct (negb output_exists); [|apply sound_ret].
  apply sound_bind; [apply sound_logging|]. intros _. apply sound_create_dir.
Qed.

Lemma sound_main (walk : list walk_entry) : sound (main args walk).
Proof.
  unfold main. apply sound_bind; [apply sound_logging|]. intros _.
  apply sound_bind.
  { unfold log_args.
    repeat (apply sound_bind; [apply sound_logging|]; intros _).
    apply sound_logging. }
  intros _. apply sound_bind; [apply sound_organize|]. intros n.
  apply sound_bind; [apply sound_logging|]. intros _. apply sound_logging.
Qed.

End Sound.

(** X6: whenever a run exits, the exit code is 1 and the log ends with
    the two records of [abort], the message and [Aborted]: the script has
    no other exit. *)
Theorem main_exit_is_abort :
  forall (args : Args) (fs : Type) (os : OS fs) (walk : list walk_entry)
         (w w' : world fs) (code : Z),
    main args walk w = Exit code w' -> code = 1%Z /\ aborted w'.
Proof.
  intros args fs os walk w w' code H.
  pose proof (sound_main args walk w) as S. rewrite H in S. exact S.
Qed.

Lemma main_exit_is_abort_witness :
  aborted (world_of (main demo_args [] (start empty_fs))).
Proof.
  exact (proj2 (main_exit_is_abort demo_args simple_fs simple_os []
                  (start empty_fs)
                  (world_of (main demo_args [] (start empty_fs))) 1 eq_refl)).
Defined.

(** X7: an exception that ends a run is one the operating system raised,
    in [shutil.copyfile] or, other than an [OSError], in [os.makedirs].
    The script raises none of its own: its two subscripts,
    [match.groups()[0]] and [region.split(',')[0]], cannot fail. *)
Theorem main_raises_only_os_exceptions :
  forall (args : Args) (fs : Type) (os : OS fs) (walk : list walk_entry)
         (w w' : world fs) (e : exn),
    main args walk w = Raise e w' -> os_raised e.
Proof.
  intros args fs os walk w w' e H.
  pose proof (sound_main args walk w) as S. rewrite H in S. exact S.
Qed.

Lemma main_raises_only_os_exceptions_witness :
  @os_raised simple_fs simple_os
    (OSError "[Errno 2] No such file or directory: 'in/Pong.bin'").
Proof.
  apply (main_raises_only_os_exceptions demo_args simple_fs simple_os
           [("in", [], ["Pong.bin"])] (start missing_file_fs)
           (world_of (main demo_args [("in", [], ["Pong.bin"])]
                           (start missing_file_fs)))).
  reflexivity.
Defined.

(** ** The report *)

(** X8: a run that ends normally reports, in its last two log records,
    the number of file names of the walk that do not contain [BIOS]
    (skipped files among them), then [Finish]. *)
Theorem main_reports_processed_count :
  forall (args : Args) (fs : Type) (os : OS fs) (walk : list walk_entry)
         (w w' : world fs),
    main args walk w = Ret tt w' ->
    exists l,
      log w'
      = (l ++ [LogInfo ("Processed "
                        ++ Py.str_of_int (Z.of_nat (List.length (processed walk)))
                        ++ " games");
               LogInfo "Finish"])%list.
Proof.
  intros args fs os walk w w'. unfold main, log_args, log_info.
  unfold bind at 1, logging at 1. unfold bind at 1.
  unfold bind at 1, logging at 1. unfold bind at 1, logging at 1.
  unfold bind at 1, logging at 1. unfold bind at 1, logging at 1.
  unfold logging at 1. unfold bind at 1.
  match goal with
  | |- context [organize args walk ?w0] =>
      destruct (organize args walk w0) as [n w1|code w1|e w1] eqn:E
  end; try discriminate.
  apply organize_count in E. subst n.
  unfold bind, logging. intros [= <-]. exists (log w1).
  cbn [log add_log]. now rewrite <- app_assoc.
Qed.

Lemma main_reports_processed_count_witness :
  exists l,
    log (world_of (main demo_args
                     [("in", [], ["Pac-Man Collection (USA).bin"; "---";
                                  "BIOS_SystemFile.bin"])]
                     (start demo_fs)))
    = (l ++ [LogInfo "Processed 2 games"; LogInfo "Finish"])%list.
Proof.
  apply (main_reports_processed_count demo_args simple_fs simple_os
           [("in", [], ["Pac-Man Collection (USA).bin"; "---";
                        "BIOS_SystemFile.bin"])]
           (start demo_fs)).
  reflexivity.
Defined.

(** ** The values of region and bucket *)

Lemma alnum_letter_or_digit (c : ascii) :
  alnum c = true -> digit c = false -> letter c = true.
Proof.
  unfold alnum, digit, letter, in_class, letters_digits. cbn [existsb].
  destruct (in_range c (Range "A" "Z")), (in_range c (Range "a" "z")),
    (in_range c (Range "0" "9")); cbn; congruence.
Qed.

(** X9: the bucket is [#] or one letter of the file name, in its case;
    it is never a digit, never empty and never longer than a character. *)
Theorem bucket_is_hash_or_letter :
  forall (game : string) (m : Match),
    search ALPHA_NUMERIC game = Some m ->
    bucket m = "#"
    \/ exists c, bucket m = String c "" /\ letter c = true
                 /\ substr (String c "") game.
Proof.
  intros game m H.
  destruct (search_ALPHA_NUMERIC_Some _ _ H) as (c & (pre & post & -> & _ & Hc) & ->).
  unfold bucket_of_char. destruct (digit c) eqn:D; [now left | right].
  exists c. repeat split; [now apply alnum_letter_or_digit|].
  now exists pre, post.
Qed.

Lemma bucket_is_hash_or_letter_witness :
  bucket {| group := "g"; groups := ["g"] |} = "#"
  \/ exists c, bucket {| group := "g"; groups := ["g"] |} = String c ""
               /\ letter c = true /\ substr (String c "") "-(golf 2)".
Proof.
  apply (bucket_is_hash_or_letter "-(golf 2)"). reflexivity.
Defined.

Lemma region_char_not_comma (a : ascii) :
  in_class region_chars a = true -> Ascii.eqb a comma = false ->
  in_class region_name_chars a = true.
Proof.
  unfold in_class, region_chars, region_name_chars. cbn [existsb].
  intros H Hc. rewrite !orb_false_r in *.
  repeat (apply orb_true_iff in H as [H|H]; [now rewrite H, ?orb_true_r|]).
  exfalso. unfold in_range in H. apply andb_true_iff in H as [H1 H2].
  apply N.leb_le in H1, H2.
  assert (E : N_of_ascii a = N_of_ascii comma) by (apply N.le_antisymm; assumption).
  apply (f_equal ascii_of_N) in E. rewrite !ascii_N_embedding in E.
  subst a. discriminate Hc.
Qed.

Lemma region_chars_no_comma (s : string) :
  forall_chars (in_class region_chars) s = true -> no_comma s ->
  forall_chars (in_class region_name_chars) s = true.
Proof.
  unfold no_comma. induction s as [|a s IH]; [reflexivity|].
  cbn [forall_chars]. intros H N.
  apply andb_true_iff in H as [Ha H]. apply andb_true_iff in N as [Na N].
  apply negb_true_iff in Na.
  now rewrite (region_char_not_comma a Ha Na), (IH H N).
Qed.

Lemma not_contains_comma (s : string) :
  Py.contains "," s = false -> no_comma s.
Proof.
  unfold no_comma. induction s as [|a s IH]; [reflexivity|].
  cbn [Py.contains forall_chars prefix]. intros H.
  apply orb_false_iff in H as [Ha H]. rewrite (IH H), andb_true_r.
  apply negb_true_iff. destruct (Ascii.eqb_spec a comma) as [->|]; [|reflexivity].
  destruct s; discriminate Ha.
Qed.

Lemma split_head_no_comma (s : string) :
  no_comma (hd "" (Py.split comma s)).
Proof.
  unfold no_comma. induction s as [|a s IH]; [reflexivity|].
  cbn [Py.split]. destruct (Ascii.eqb a comma) eqn:E; [reflexivity|].
  destruct (Py.split comma s) as [|x xs]; cbn [hd forall_chars] in *;
    now rewrite E, ?IH.
Qed.

Lemma split_head_substr (s : string) : substr (hd "" (Py.split comma s)) s.
Proof.
  apply split_substr with (c := comma).
  destruct (Py.split comma s) eqn:E; [now destruct (split_nonempty comma s)|].
  now left.
Qed.

(** X10: a resolved region is made of letters, digits and spaces only:
    it holds no comma, no bracket and no path separator, whatever the file
    name. *)
Theorem resolved_region_chars :
  forall (fs : Type) (game region : string) (w w' : world fs),
    resolve_region game w = Ret region w' ->
    forall_chars (in_class region_name_chars) region = true.
Proof.
  intros fs game region w w' H.
  destruct (region_group_or_none game) as [(g & Hg)|Hn].
  - rewrite (resolve_region_found _ _ _ Hg) in H. injection H as <- _.
    destruct Hg as (pre & post & (_ & _ & Hc) & _).
    unfold region_of_group. destruct (Py.contains "," g) eqn:E.
    + destruct (Py.contains "USA" g); [reflexivity|].
      apply forall_chars_substr with (g := hd "" (Py.split comma g));
        [apply strip_substr|].
      apply region_chars_no_comma; [|apply split_head_no_comma].
      apply forall_chars_substr with (g := g);
        [apply split_head_substr | exact Hc].
    + apply region_chars_no_comma; [exact Hc | now apply not_contains_comma].
  - rewrite (resolve_region_default _ _ Hn) in H. now injection H as <- _.
Qed.

Lemma resolved_region_chars_witness :
  forall_chars (in_class region_name_chars) "Hong Kong" = true.
Proof.
  apply (resolved_region_chars simple_fs "Mystery Game (Hong Kong, Asia).bin"
           "Hong Kong" (start demo_fs) (start demo_fs)).
  reflexivity.
Defined.

(** X11: a region group without a comma is the region as it stands,
    spaces around it included: nothing is trimmed (only the first tag of
    a list is), and no warning is logged. *)
Theorem single_region_taken_as_is :
  forall (fs : Type) (game g : string) (w : world fs),
    first_region_group game g -> ~ substr "," g ->
    resolve_region game w = Ret g w.
Proof.
  intros fs game g w Hg Hc. rewrite (resolve_region_found _ _ _ Hg).
  unfold region_of_group. destruct (Py.contains "," g) eqn:E; [|reflexivity].
  apply contains_substr in E. contradiction.
Qed.

Lemma single_region_taken_as_is_witness :
  resolve_region "Pac-Man ( USA ).bin" (start demo_fs)
  = Ret " USA " (start demo_fs)
  /\ get_destination_dir demo_args " USA " "P" = "out/Other/ USA ".
Proof.
  split; [|reflexivity].
  apply (single_region_taken_as_is simple_fs "Pac-Man ( USA ).bin" " USA ").
  - apply search_REGION_first. reflexivity.
  - intros H. apply contains_substr in H. discriminate H.
Defined.

(** ** Destination paths *)

Lemma get_destination_dir_other (args : Args) (region first_char : string) :
  ~ privileged region -> Py.startswith "/" region = false ->
  get_destination_dir args region first_char
  = as_dir (output_dir args) ++ "Other/" ++ region.
Proof.
  intros Hp Hr. unfold get_destination_dir.
  destruct (existsb (String.eqb region) ["Europe"; "Japan"; "USA"]) eqn:E;
    [apply privileged_eqb in E; contradiction|].
  unfold os_path_join. cbn [fold_left].
  rewrite (join_step_as_dir _ region Hr), (join_step_as_dir _ "Other" eq_refl).
  rewrite as_dir_append, !append_assoc; [reflexivity | discriminate | reflexivity].
Qed.

Lemma privileged_no_comma (g : string) : privileged g -> Py.contains "," g = false.
Proof. intros [->|[->| ->]]; reflexivity. Qed.

Lemma bucket_of_char_plain (c : ascii) :
  alnum c = true ->
  bucket_of_char c <> "" /\ Py.endswith_char sep (bucket_of_char c) = false.
Proof.
  intros H. unfold bucket_of_char.
  destruct (digit c); split; try discriminate; try reflexivity.
  cbn [Py.endswith_char]. destruct (Ascii.eqb_spec c sep) as [->|]; [|reflexivity].
  vm_compute in H. discriminate H.
Qed.

(** X12: a file whose first region group is exactly [Europe], [Japan] or
    [USA], and whose name does not start with a separator, is sent to
    [<output_root>/<region>/<bucket>/<name>] from [<input_root>/<name>]:
    the directory is probed, created if absent, and the file copied into
    it unless the creation failed. *)
Theorem privileged_region_route :
  forall (args : Args) (fs : Type) (os : OS fs) (game g : string) (c : ascii)
         (w : world fs),
    first_region_group game g -> privileged g ->
    first_alnum game c -> Py.startswith "/" game = false ->
    let d := as_dir (output_dir args) ++ g ++ "/" ++ bucket_of_char c in
    let cp := CallCopyfile (as_dir (input_dir args) ++ game) (d ++ "/" ++ game) in
    calls_during (move_game args game) w
    = if path_exists (files w) d then [CallExists d; cp]
      else match makedirs (files w) d with
           | inl _ => [CallExists d; CallMakedirs d; cp]
           | inr _ => [CallExists d; CallMakedirs d]
           end.
Proof.
  intros args fs os game g c w Hg Hp Hc Hs d cp.
  pose proof (resolve_region_found game g w Hg) as HR.
  unfold region_of_group in HR. rewrite (privileged_no_comma _ Hp) in HR.
  rewrite (move_game_route_calls args _ _ _ _ _ HR Hc). cbv zeta.
  assert (Ha : alnum c = true) by (now destruct Hc as (? & ? & _ & _ & ?)).
  rewrite (get_destination_dir_privileged _ _ _ Hp (bucket_of_char_no_sep _ Ha)).
  fold d. unfold os_path_join. cbn [fold_left].
  rewrite !(join_step_as_dir _ game Hs).
  destruct (bucket_of_char_plain _ Ha) as [Hne He].
  assert (Ed : as_dir d = d ++ "/").
  { unfold d. rewrite <- !append_assoc.
    rewrite (as_dir_append _ _ Hne He). now rewrite !append_assoc. }
  rewrite Ed, !append_assoc. reflexivity.
Qed.

Lemma privileged_region_route_witness :
  calls_during (move_game demo_args "007 GoldenEye (Europe).rom") (start demo_fs)
  = [CallExists "out/Europe/#"; CallMakedirs "out/Europe/#";
     CallCopyfile "in/007 GoldenEye (Europe).rom"
                  "out/Europe/#/007 GoldenEye (Europe).rom"].
Proof.
  apply (privileged_region_route demo_args simple_fs simple_os
           "007 GoldenEye (Europe).rom" "Europe" "0" (start demo_fs)).
  - apply search_REGION_first. reflexivity.
  - left. reflexivity.
  - exists "", "07 GoldenEye (Europe).rom". repeat split.
  - reflexivity.
Defined.

(** X13: the resolver keeps classes apart.  Two pairs of a region and a
    bucket (path components) with one destination directory have the same
    region, and, for [Europe], [Japan] and [USA], the same bucket. *)
Theorem destination_dir_injective :
  forall (args : Args) (r1 b1 r2 b2 : string),
    Py.startswith "/" r1 = false -> Py.startswith "/" b1 = false ->
    Py.startswith "/" r2 = false -> Py.startswith "/" b2 = false ->
    get_destination_dir args r1 b1 = get_destination_dir args r2 b2 ->
    r1 = r2 /\ (privileged r1 -> b1 = b2).
Proof.
  intros args r1 b1 r2 b2 Hr1 Hb1 Hr2 Hb2 E.
  destruct (existsb (String.eqb r1) ["Europe"; "Japan"; "USA"]) eqn:P1;
    destruct (existsb (String.eqb r2) ["Europe"; "Japan"; "USA"]) eqn:P2.
  - apply privileged_eqb in P1, P2.
    rewrite (get_destination_dir_privileged _ _ _ P1 Hb1),
      (get_destination_dir_privileged _ _ _ P2 Hb2) in E.
    apply append_inv_head in E.
    destruct P1 as [->|[->| ->]]; destruct P2 as [->|[->| ->]];
      try discriminate E; (split; [reflexivity|]); intros _;
      cbn [append] in E; now injection E.
  - exfalso. apply privileged_eqb in P1.
    assert (N2 : ~ privileged r2)
      by (intros H; apply privileged_eqb in H; congruence).
    rewrite (get_destination_dir_privileged _ _ _ P1 Hb1),
      (get_destination_dir_other _ _ _ N2 Hr2) in E.
    apply append_inv_head in E.
    destruct P1 as [->|[->| ->]]; discriminate E.
  - exfalso. apply privileged_eqb in P2.
    assert (N1 : ~ privileged r1)
      by (intros H; apply privileged_eqb in H; congruence).
    rewrite (get_destination_dir_privileged _ _ _ P2 Hb2),
      (get_destination_dir_other _ _ _ N1 Hr1) in E.
    apply append_inv_head in E.
    destruct P2 as [->|[->| ->]]; discriminate E.
  - assert (N1 : ~ privileged r1)
      by (intros H; apply privileged_eqb in H; congruence).
    assert (N2 : ~ privileged r2)
      by (intros H; apply privileged_eqb in H; congruence).
    rewrite (get_destination_dir_other _ _ _ N1 Hr1),
      (get_destination_dir_other _ _ _ N2 Hr2) in E.
    apply append_inv_head in E. cbn [append] in E.
    split; [now injection E | intros H; contradiction].
Qed.

Lemma destination_dir_injective_witness :
  "USA" = "USA" /\ (privileged "USA" -> "P" = "P").
Proof.
  apply (destination_dir_injective demo_args "USA" "P" "USA" "P");
    reflexivity.
Defined.

(** ** A second run *)

Lemma simple_os_keeps_directories : keeps_directories simple_os.
Proof.
  split.
  - intros f path f'. cbn. destruct (mem path (read_only f)); [discriminate|].
    destruct (mem path (present f)); [discriminate|].
    intros [= <-]. cbn. unfold mem. cbn [existsb]. now rewrite String.eqb_refl.
  - intros f src dst f' path. cbn. destruct (mem src (present f)); [|discriminate].
    destruct (mem dst (read_only f)); [discriminate|].
    intros [= <-] H. cbn. unfold mem in *. cbn [existsb]. now rewrite H, orb_true_r.
Qed.

(** X14: on a file system that keeps its directories, once [move_game]
    has returned for a file, taking the same file up again creates no
    directory: the destination directory is found and the file copied
    over. *)
Theorem second_run_creates_nothing :
  forall (args : Args) (fs : Type) (os : OS fs) (game : string)
         (c : ascii) (w w' : world fs),
    keeps_directories os ->
    first_alnum game c ->
    move_game args game w = Ret tt w' ->
    exists d,
      calls_during (move_game args game) w'
      = [CallExists d;
         CallCopyfile (os_path_join (input_dir args) [game])
                      (os_path_join d [game])].
Proof.
  intros args fs os game c w w' [Lmk Lcp] HA HM.
  destruct (resolve_region_pure game) as (region & _ & HR).
  destruct (HR fs w) as (w1 & HR1 & Hf & _).
  destruct (HR fs w') as (w1' & HR1' & _ & _).
  set (d := get_destination_dir args region (bucket_of_char c)).
  exists d.
  rewrite (move_game_route_calls args _ _ _ _ _ HR1' HA). cbv zeta. fold d.
  enough (E : path_exists (files w') d = true) by now rewrite E.
  rewrite (move_game_cases args _ _ _ _ _ HR1 HA) in HM. cbv zeta in HM.
  fold d in HM. unfold bind, log_info, logging, shutil_copyfile in HM.
  rewrite Hf in HM.
  destruct (path_exists (files w) d) eqn:He.
  - cbn [files add_log add_call] in HM. rewrite Hf in HM.
    case_copyfile_eqn HM; [|discriminate HM].
    injection HM as <-. cbn [files set_files]. eauto.
  - destruct (makedirs (files w) d) as [f|[[|msg|msg] f']] eqn:Hm;
      try discriminate HM.
    cbn [files add_log add_call set_files] in HM.
    case_copyfile_eqn HM; [|discriminate HM].
    injection HM as <-. cbn [files set_files]. eauto.
Qed.

Lemma second_run_creates_nothing_witness :
  exists d,
    calls_during
      (move_game demo_args "Pac-Man Collection (USA).bin")
      (world_of (move_game demo_args "Pac-Man Collection (USA).bin"
                           (start demo_fs)))
    = [CallExists d;
       CallCopyfile (os_path_join "in" ["Pac-Man Collection (USA).bin"])
                    (os_path_join d ["Pac-Man Collection (USA).bin"])].
Proof.
  apply (second_run_creates_nothing demo_args simple_fs simple_os
           "Pac-Man Collection (USA).bin" "P" (start demo_fs)
           (world_of (move_game demo_args "Pac-Man Collection (USA).bin"
                                (start demo_fs)))
           simple_os_keeps_directories).
  - exists "", "ac-Man Collection (USA).bin". repeat split.
  - reflexivity.
Defined.

(** ** Staying under the roots *)

Lemma as_dir_cases (path : string) : as_dir path = path \/ as_dir path = path ++ "/".
Proof.
  unfold as_dir.
  destruct (String.eqb path "" || Py.endswith_char sep path)%bool; auto.
Qed.

Lemma get_destination_dir_under_root (args : Args) (region first_char : string) :
  Py.startswith "/" region = false -> Py.startswith "/" first_char = false ->
  exists rel, get_destination_dir args region first_char
              = as_dir (output_dir args) ++ rel.
Proof.
  intros Hr Hb.
  destruct (existsb (String.eqb region) ["Europe"; "Japan"; "USA"]) eqn:E.
  - apply privileged_eqb in E. eexists.
    apply (get_destination_dir_privileged _ _ _ E Hb).
  - assert (N : ~ privileged region)
      by (intros H; apply privileged_eqb in H; congruence).
    eexists. apply (get_destination_dir_other _ _ _ N Hr).
Qed.

Section Roots.

Context {fs : Type} {os : OS fs}.
Variable args : Args.

Lemma emits_strengthen {A} (P Q : os_call -> Prop) (c : M fs A) :
  emits Q c -> (forall w x, In x (calls_during c w) -> P x) -> emits P c.
Proof.
  intros H HP w. destruct (H w) as (delta & E & _).
  exists delta. split; [exact E|]. apply Forall_forall. intros x Hx.
  apply (HP w). now rewrite (calls_during_app _ _ _ E).
Qed.

Lemma move_game_under_roots (game : string) :
  Py.startswith "/" game = false ->
  emits (under_roots args) (move_game args game).
Proof.
  intros Hs. apply emits_strengthen with (1 := emits_move_game args game).
  intros w x Hx.
  destruct (resolve_region_pure game) as (region & Hr & HR).
  destruct (HR fs w) as (w1 & HR1 & _ & Hc).
  destruct (first_alnum_or_none game) as [(c & HA)|Hn].
  - assert (Ha : alnum c = true) by (now destruct HA as (? & ? & _ & _ & ?)).
    destruct (get_destination_dir_under_root args region (bucket_of_char c)
                Hr (bucket_of_char_no_sep _ Ha)) as (rel & Ed).
    destruct (move_game_route args _ _ _ _ _ HR1 Hc HA) as (delta & E & D).
    rewrite (calls_during_app _ _ _ E) in Hx. cbv zeta in D. rewrite Ed in D.
    assert (X : x = CallExists (as_dir (output_dir args) ++ rel)
                \/ x = CallMakedirs (as_dir (output_dir args) ++ rel)
                \/ x = CallCopyfile
                         (os_path_join (input_dir args) [game])
                         (os_path_join (as_dir (output_dir args) ++ rel) [game]))
      by (destruct D as [->|[->| ->]]; cbn [In] in Hx; intuition auto).
    destruct X as [->|[->| ->]]; cbn [under_roots].
    + exact I.
    + right. apply prefix_append.
    + unfold os_path_join. cbn [fold_left].
      rewrite !(join_step_as_dir _ game Hs). split; [apply prefix_append|].
      destruct (as_dir_cases (as_dir (output_dir args) ++ rel)) as [-> | ->];
        rewrite !append_assoc; apply prefix_append.
  - rewrite (calls_during_app _ _ []) in Hx; [destruct Hx|].
    rewrite (move_game_skip args _ _ _ _ HR1 Hn), app_nil_r. exact Hc.
Qed.

Lemma for_games_under_roots (games : list string) :
  Forall (fun n => Py.startswith "/" n = false) games ->
  forall n, emits (under_roots args) (for_games args games n).
Proof.
  induction 1 as [|game rest Hg _ IH]; intros n; cbn [for_games].
  - apply emits_ret.
  - apply emits_bind; [|exact IH].
    unfold organize_game. destruct (Py.contains "BIOS" game).
    + apply emits_bind; [apply emits_logging | intros _; apply emits_ret].
    + apply emits_bind; [now apply move_game_under_roots|].
      intros _. apply emits_ret.
Qed.

Lemma for_walk_under_roots (walk : list walk_entry) :
  Forall (fun n => Py.startswith "/" n = false) (flat_map snd walk) ->
  forall n, emits (under_roots args) (for_walk args walk n).
Proof.
  induction walk as [|[[dirpath dirnames] games] rest IH];
    cbn [for_walk flat_map snd]; intros H n.
  - apply emits_ret.
  - apply Forall_app in H as [Hg Hr].
    apply emits_bind; [now apply for_games_under_roots|].
    intros n'. now apply IH.
Qed.

End Roots.

(** X15: a run stays under its roots.  Over file names as a directory
    listing gives them (none starts with a separator), every directory
    [organize] creates is the output root or a path that extends it, and
    every copy reads a path that extends the input root and writes a path
    that extends the output root. *)
Theorem organize_stays_under_roots :
  forall (args : Args) (fs : Type) (os : OS fs) (walk : list walk_entry)
         (w : world fs) (x : os_call),
    Forall (fun n => Py.startswith "/" n = false) (flat_map snd walk) ->
    In x (calls_during (organize args walk) w) ->
    under_roots args x.
Proof.
  intros args fs os walk w x Hw Hx.
  apply (emits_In (under_roots args) (organize args walk) w); [|exact Hx].
  unfold organize.
  apply emits_bind; [now apply emits_exists|]. intros input_exists.
  apply emits_bind.
  { destruct (negb input_exists); [apply emits_abort | apply emits_ret]. }
  intros _. apply emits_bind; [now apply emits_exists|]. intros output_exists.
  apply emits_bind; [|intros _; now apply for_walk_under_roots].
  destruct (negb output_exists); [|apply emits_ret].
  apply emits_bind; [apply emits_logging|]. intros _.
  apply emits_create_dir. now left.
Qed.

Lemma organize_stays_under_roots_witness :
  under_roots demo_args
    (CallCopyfile "in/Pac-Man Collection (USA).bin"
                  "out/USA/P/Pac-Man Collection (USA).bin").
Proof.
  apply (organize_stays_under_roots demo_args simple_fs simple_os
           [("in", [], ["Pac-Man Collection (USA).bin"; "---"])]
           (start demo_fs)).
  - repeat constructor.
  - vm_compute. auto 10.
Defined.

(** ** The loop over the walk *)

Section Loop.

Context {fs : Type} {os : OS fs}.
Variable args : Args.

Lemma bind_ext {A B} (c : M fs A) (k1 k2 : A -> M fs B) (w : world fs) :
  (forall a w', k1 a w' = k2 a w') -> bind c k1 w = bind c k2 w.
Proof. intros H. unfold bind. destruct (c w); [apply H | reflexivity..]. Qed.

Lemma bind_assoc {A B C} (c : M fs A) (k : A -> M fs B) (h : B -> M fs C)
  (w : world fs) :
  bind (bind c k) h w = bind c (fun a => bind (k a) h) w.
Proof. unfold bind. destruct (c w); reflexivity. Qed.

Lemma for_games_app (l1 l2 : list string) :
  forall n w,
    for_games args (l1 ++ l2) n w
    = (n' <- for_games args l1 n ;; for_games args l2 n') w.
Proof.
  induction l1 as [|game l1 IH]; intros n w; [reflexivity|].
  cbn [app for_games]. rewrite bind_assoc. apply bind_ext. exact IH.
Qed.

(** The loop over the walk is the loop over its file names, put end to
    end. *)
Lemma for_walk_flat (walk : list walk_entry) :
  forall n w,
    for_walk args walk n w = for_games args (flat_map snd walk) n w.
Proof.
  induction walk as [|[[dirpath dirnames] games] rest IH]; intros n w;
    [reflexivity|].
  cbn [for_walk flat_map snd]. rewrite for_games_app. apply bind_ext. exact IH.
Qed.

End Loop.

(** X16: [organize] sees the walk only through its file names, in order:
    the directory each name was listed in and the directory names play no
    part.  Two walks with the same file names end to end give the same
    run. *)
Theorem organize_ignores_directories :
  forall (args : Args) (fs : Type) (os : OS fs)
         (walk1 walk2 : list walk_entry) (w : world fs),
    flat_map snd walk1 = flat_map snd walk2 ->
    organize args walk1 w = organize args walk2 w.
Proof.
  intros args fs os walk1 walk2 w H. unfold organize.
  repeat (apply bind_ext; intros).
  now rewrite !for_walk_flat, H.
Qed.

Lemma organize_ignores_directories_witness :
  organize demo_args (os_walk "in" demo_tree) (start demo_fs)
  = organize demo_args
      [("in", [], ["Pac-Man Collection (USA).bin"; "007 GoldenEye (Europe).rom"])]
      (start demo_fs).
Proof.
  apply (organize_ignores_directories demo_args simple_fs simple_os).
  reflexivity.
Defined.

(** ** A run on which nothing fails *)

Lemma first_alnum_has_alnum (game : string) (c : ascii) :
  first_alnum game c -> has_alnum game = true.
Proof.
  intros (pre & post & -> & _ & Hc). unfold has_alnum.
  rewrite forall_chars_append. cbn [forall_chars]. rewrite Hc. cbn.
  now rewrite andb_false_r.
Qed.

Lemma no_alnum_has_alnum (game : string) : no_alnum game -> has_alnum game = false.
Proof. unfold no_alnum, has_alnum. now intros ->. Qed.

Lemma copy_sources_app (l1 l2 : list os_call) :
  copy_sources (l1 ++ l2) = (copy_sources l1 ++ copy_sources l2)%list.
Proof. apply flat_map_app. Qed.

Section Success.

Context {fs : Type} {os : OS fs}.
Variable args : Args.
Hypothesis Hok : never_fails os.

Lemma move_game_succeeds (game : string) (w : world fs) :
  exists w' delta,
    move_game args game w = Ret tt w'
    /\ calls w' = (calls w ++ delta)%list
    /\ copy_sources delta
       = if has_alnum game then [os_path_join (input_dir args) [game]] else [].
Proof.
  destruct Hok as [Hmk Hcp].
  destruct (resolve_region_pure game) as (region & _ & HR).
  destruct (HR fs w) as (w1 & HR1 & Hf & Hc).
  destruct (first_alnum_or_none game) as [(c & HA)|Hn].
  - rewrite (first_alnum_has_alnum _ _ HA).
    rewrite (move_game_cases args _ _ _ _ _ HR1 HA). cbv zeta.
    set (d := get_destination_dir args region (bucket_of_char c)).
    set (src := os_path_join (input_dir args) [game]).
    set (dst := os_path_join d [game]).
    unfold bind, log_info, logging, shutil_copyfile.
    destruct (path_exists (files w1) d).
    + cbn [files add_log add_call].
      destruct (Hcp (files w1) src dst) as (f' & ->).
      eexists. exists [CallExists d; CallCopyfile src dst].
      split; [reflexivity|]. cbn [calls set_files add_call add_log].
      split; [now rewrite Hc, <- app_assoc | reflexivity].
    + destruct (Hmk (files w1) d) as (f & ->).
      cbn [files add_log add_call set_files].
      destruct (Hcp f src dst) as (f' & ->).
      eexists. exists [CallExists d; CallMakedirs d; CallCopyfile src dst].
      split; [reflexivity|]. cbn [calls set_files add_call add_log].
      split; [now rewrite Hc, <- !app_assoc | reflexivity].
  - rewrite (no_alnum_has_alnum _ Hn), (move_game_skip args _ _ _ _ HR1 Hn).
    eexists. exists []. split; [reflexivity|].
    split; [now rewrite app_nil_r | reflexivity].
Qed.

Lemma for_games_succeeds (games : list string) :
  forall n w,
    exists n' w' delta,
      for_games args games n w = Ret n' w'
      /\ calls w' = (calls w ++ delta)%list
      /\ copy_sources delta
         = map (fun game => os_path_join (input_dir args) [game]) (routed games).
Proof.
  induction games as [|game rest IH]; intros n w; cbn [for_games].
  - exists n, w, []. split; [reflexivity|]. split; [now rewrite app_nil_r|].
    reflexivity.
  - unfold bind at 1, organize_game, routed, not_BIOS. cbn [filter].
    destruct (Py.contains "BIOS" game); cbn [negb andb].
    + unfold bind at 1, log_info, logging, ret.
      destruct (IH n (add_log (LogInfo ("Skipping BIOS file: " ++ game)) w))
        as (n' & w' & delta & E & Hc & Hs).
      exists n', w', delta. repeat split; assumption.
    + unfold bind at 1.
      destruct (move_game_succeeds game w) as (w1 & d1 & -> & Hc1 & Hs1).
      unfold ret.
      destruct (IH (n + 1)%Z w1) as (n' & w' & d2 & E & Hc2 & Hs2).
      exists n', w', (d1 ++ d2)%list. split; [exact E|].
      split; [now rewrite Hc2, Hc1, app_assoc|].
      rewrite copy_sources_app, Hs1, Hs2.
      now destruct (has_alnum game).
Qed.

End Success.


Lemma open_os_never_fails : never_fails open_os.
Proof. split; intros; eexists; reflexivity. Qed.

